(** * makemkvcon-deno: the robot-mode parser (src/lib/parser.ts)

    A shallow embedding of the field tokenizer [parseRobotValues], the line
    decoder [parseRobotLine], the aggregators [parseDiscInfo] and
    [parseDiscInfoAdvanced] and the accessor [getTitleCount], then of the
    command builder (src/lib/command.ts), followed by the properties
    stated about them.

    Conventions of the embedding.
    - A JavaScript string is the list of its UTF-16 code units ([N]).
    - A JavaScript number that reaches a record is an integer: it comes out
      of [parseInt] and has passed the [isNaN] guard.  It is modelled by
      the mathematical integer ([Z]); the rounding of magnitudes above 2^53
      to the nearest double (up to [Infinity] for very long numerals) and
      the sign of zero are not modelled.
    - An abrupt completion (a thrown exception) is the constructor [Throw]
      of [completion]; [try ... catch] is [tryCatch]. *)

From Stdlib Require Import ZArith NArith Ascii String DecimalZ DecimalPos.
From stdpp Require Import base decidable option list gmap.

Local Open Scope Z_scope.

(** ** Strings *)

Abbreviation char := N.
Abbreviation jsstring := (list N).

(** A string literal, code unit by code unit. *)
Definition lit (s : string) : jsstring :=
  map N_of_ascii (list_ascii_of_string s).

Definition ch_backslash : char := 92%N.
Definition ch_dquote : char := 34%N.
Definition ch_comma : char := 44%N.
Definition ch_colon : char := 58%N.
Definition ch_newline : char := 10%N.

(** [quoted s] is [s] between two double-quote characters. *)
Definition quoted (s : jsstring) : jsstring := ch_dquote :: s ++ [ch_dquote].

(** ** The tokenizer: [parseRobotValues] *)

(** The four loop variables of [parseRobotValues]. *)
Record TokState := mkTok {
  values : list jsstring;
  current : jsstring;
  inQuotes : bool;
  escaped : bool
}.

Definition tokInit : TokState := mkTok [] [] false false.

(** One iteration of the [for] loop, on the code unit [c = input[i]]. *)
Definition tokStep (st : TokState) (c : char) : TokState :=
  if escaped st then
    mkTok (values st) (current st ++ [c]) (inQuotes st) false
  else if (c =? ch_backslash)%N then
    mkTok (values st) (current st) (inQuotes st) true
  else if (c =? ch_dquote)%N then
    mkTok (values st) (current st) (negb (inQuotes st)) (escaped st)
  else if (c =? ch_comma)%N && negb (inQuotes st) then
    mkTok (values st ++ [current st]) [] (inQuotes st) (escaped st)
  else
    mkTok (values st) (current st ++ [c]) (inQuotes st) (escaped st).

Definition tokScan (st : TokState) (input : jsstring) : TokState :=
  fold_left tokStep input st.

(** A string is truthy when it is not empty. *)
Definition truthy (s : jsstring) : bool :=
  match s with [] => false | _ => true end.

(** The test [current || values.length > 0] and the final [push]. *)
Definition tokFinish (st : TokState) : list jsstring :=
  if truthy (current st) || (0 <? length (values st))%nat
  then values st ++ [current st]
  else values st.

Definition parseRobotValues (input : jsstring) : list jsstring :=
  tokFinish (tokScan tokInit input).

(** ** String primitives used by the decoder *)

(** ECMAScript WhiteSpace and LineTerminator code units, the ones removed
    by [String.prototype.trim] and skipped by [parseInt]. *)
Definition isWhiteSpace (c : char) : bool :=
  ((9 <=? c) && (c <=? 13) || (c =? 32) || (c =? 160) || (c =? 5760)
   || (8192 <=? c) && (c <=? 8202) || (c =? 8232) || (c =? 8233)
   || (c =? 8239) || (c =? 8287) || (c =? 12288) || (c =? 65279))%N.

Fixpoint trimStart (s : jsstring) : jsstring :=
  match s with
  | c :: s' => if isWhiteSpace c then trimStart s' else s
  | [] => []
  end.

Definition trimEnd (s : jsstring) : jsstring := rev (trimStart (rev s)).

Definition trim (s : jsstring) : jsstring := trimEnd (trimStart s).

(** [s.indexOf(c)] for a one-character needle: the first position of [c],
    or -1. *)
Fixpoint indexOf (s : jsstring) (c : char) : Z :=
  match s with
  | [] => -1
  | x :: s' =>
      if (x =? c)%N then 0
      else let i := indexOf s' c in if i =? -1 then -1 else i + 1
  end.

(** [s.substring(a, b)]: both ends are clamped to [0, length] and swapped
    when out of order. *)
Definition substring (s : jsstring) (a b : Z) : jsstring :=
  let len := Z.of_nat (length s) in
  let a' := Z.min (Z.max a 0) len in
  let b' := Z.min (Z.max b 0) len in
  let from := Z.min a' b' in
  let to := Z.max a' b' in
  take (Z.to_nat (to - from)) (drop (Z.to_nat from) s).

(** [s.substring(a)] *)
Definition substringFrom (s : jsstring) (a : Z) : jsstring :=
  substring s a (Z.of_nat (length s)).

(** [a.join(sep)] on an array of strings. *)
Fixpoint join (sep : jsstring) (a : list jsstring) : jsstring :=
  match a with
  | [] => []
  | [x] => x
  | x :: a' => x ++ sep ++ join sep a'
  end.

(** [s.split(sep)] for a one-character separator; the result is never
    empty: the empty string splits into one empty string. *)
Fixpoint split (sep : char) (s : jsstring) : list jsstring :=
  match s with
  | [] => [[]]
  | c :: s' =>
      if (c =? sep)%N then [] :: split sep s'
      else match split sep s' with
           | w :: ws => (c :: w) :: ws
           | [] => [[c]]
           end
  end.

(** ** Numbers: [parseInt] with no radix argument *)

Inductive number := NaN | Num (z : Z).

(** The value of a code unit as a digit: 0-9, then a-z and A-Z for 10-35. *)
Definition digitValue (c : char) : option Z :=
  if ((48 <=? c) && (c <=? 57))%N then Some (Z.of_N c - 48)
  else if ((97 <=? c) && (c <=? 122))%N then Some (Z.of_N c - 87)
  else if ((65 <=? c) && (c <=? 90))%N then Some (Z.of_N c - 55)
  else None.

Definition isDigit (R : Z) (c : char) : bool :=
  match digitValue c with Some d => d <? R | None => false end.

(** The longest prefix of radix-[R] digits. *)
Fixpoint digitPrefix (R : Z) (s : jsstring) : jsstring :=
  match s with
  | c :: s' => if isDigit R c then c :: digitPrefix R s' else []
  | [] => []
  end.

(** The integer written by the digits [ds] in radix [R]. *)
Definition digitsValue (R : Z) (ds : jsstring) : Z :=
  fold_left (fun acc c => acc * R + default 0 (digitValue c)) ds 0.

(** ECMA-262 [parseInt(string)]: skip leading white space, read a sign,
    strip a [0x]/[0X] prefix (which switches to radix 16), keep the longest
    prefix of digits and ignore whatever follows; [NaN] when that prefix is
    empty.  Whether the result is [NaN] is exact for every string; the
    number returned is exact for the safe integers (below 2^53 in
    magnitude) and stands for the nearest double beyond them. *)
Definition parseInt (input : jsstring) : number :=
  let s := trimStart input in
  let '(sign, s) :=
    match s with
    | c :: s' =>
        if (c =? 45)%N then (-1, s')
        else if (c =? 43)%N then (1, s')
        else (1, s)
    | [] => (1, s)
    end in
  let '(R, s) :=
    match s with
    | c0 :: c1 :: s' =>
        if ((c0 =? 48) && ((c1 =? 120) || (c1 =? 88)))%N then (16, s')
        else (10, s)
    | _ => (10, s)
    end in
  match digitPrefix R s with
  | [] => NaN
  | ds => Num (sign * digitsValue R ds)
  end.

(** ** Records (src/lib/types.ts) *)

Inductive ProgressTag := PRGC | PRGT.
Inductive InfoTag := CINFO | TINFO | SINFO.

(** The union [RobotOutput]; the [type] field is the constructor, together
    with the tag argument for the two shapes shared by several tags. *)
Inductive RobotOutput :=
| MsgOutput (code flags count : Z) (message format : jsstring)
    (params : list jsstring)
| ProgressTitle (type : ProgressTag) (code id : Z) (name : jsstring)
| ProgressValue (current total max : Z)
| DriveInfo (index : Z) (visible enabled : bool) (flags : Z)
    (driveName discName : jsstring)
| TitleCount (count : Z)
| InfoOutput (type : InfoTag) (id code : Z) (value : jsstring).

#[global] Instance InfoTag_eq_dec : EqDecision InfoTag.
Proof. solve_decision. Defined.

(** ** Completions: normal return or thrown exception *)

Inductive completion (A : Type) :=
| Normal (a : A)
| Throw.
Arguments Normal {A} a.
Arguments Throw {A}.

Definition bindC {A B} (c : completion A) (k : A -> completion B)
  : completion B :=
  match c with
  | Normal a => k a
  | Throw => Throw
  end.

Notation "'let*' x ':=' c 'in' k" := (bindC c (fun x => k))
  (at level 10, x name, c at level 100, k at level 200).

(** [try { body } catch { return handler }] *)
Definition tryCatch {A} (body : completion A) (handler : completion A)
  : completion A :=
  match body with
  | Normal a => Normal a
  | Throw => handler
  end.

(** ** The decoder: [parseRobotLine] *)

(** [parts[i]], read only where the length test above it has shown
    [i < parts.length]. *)
Definition at_ (parts : list jsstring) (i : nat) : jsstring :=
  nth i parts [].

(** [parts[i] === "1"] *)
Definition isOne (s : jsstring) : bool := bool_decide (s = lit "1").

Section Decoder.

(** The numeric parser the decoder calls.  The program calls the global
    [parseInt]; the section lets it be any function, one that throws
    included, so that the [try]/[catch] can be reasoned about. *)
Variable parseIntC : jsstring -> completion number.

Definition decodeInfo (type : InfoTag) (rest : jsstring)
  : completion (option RobotOutput) :=
  let parts := parseRobotValues rest in
  if (length parts <? 3)%nat then Normal None else
  let* id := parseIntC (at_ parts 0) in
  let* code := parseIntC (at_ parts 1) in
  match id, code with
  | Num id, Num code => Normal (Some (InfoOutput type id code (at_ parts 2)))
  | _, _ => Normal None
  end.

Definition decodeProgressTitle (type : ProgressTag) (rest : jsstring)
  : completion (option RobotOutput) :=
  let parts := parseRobotValues rest in
  if (length parts <? 3)%nat then Normal None else
  let* code := parseIntC (at_ parts 0) in
  let* id := parseIntC (at_ parts 1) in
  match code, id with
  | Num code, Num id =>
      Normal (Some (ProgressTitle type code id (at_ parts 2)))
  | _, _ => Normal None
  end.

(** The [switch (type)] inside the [try] block. *)
Definition decodeSwitch (type rest : jsstring)
  : completion (option RobotOutput) :=
  if decide (type = lit "MSG") then
    let parts := parseRobotValues rest in
    if (length parts <? 5)%nat then Normal None else
    let* code := parseIntC (at_ parts 0) in
    let* flags := parseIntC (at_ parts 1) in
    let* count := parseIntC (at_ parts 2) in
    match code, flags, count with
    | Num code, Num flags, Num count =>
        Normal (Some (MsgOutput code flags count (at_ parts 3)
                        (at_ parts 4) (drop 5 parts)))
    | _, _, _ => Normal None
    end
  else if decide (type = lit "PRGC") then decodeProgressTitle PRGC rest
  else if decide (type = lit "PRGT") then decodeProgressTitle PRGT rest
  else if decide (type = lit "PRGV") then
    let parts := parseRobotValues rest in
    if (length parts <? 3)%nat then Normal None else
    let* current := parseIntC (at_ parts 0) in
    let* total := parseIntC (at_ parts 1) in
    let* max := parseIntC (at_ parts 2) in
    match current, total, max with
    | Num current, Num total, Num max =>
        Normal (Some (ProgressValue current total max))
    | _, _, _ => Normal None
    end
  else if decide (type = lit "DRV") then
    let parts := parseRobotValues rest in
    if (length parts <? 6)%nat then Normal None else
    let* index := parseIntC (at_ parts 0) in
    let* flags := parseIntC (at_ parts 3) in
    match index, flags with
    | Num index, Num flags =>
        Normal (Some (DriveInfo index (isOne (at_ parts 1))
                        (isOne (at_ parts 2)) flags
                        (at_ parts 4) (at_ parts 5)))
    | _, _ => Normal None
    end
  else if decide (type = lit "TCOUT") then
    let parts := parseRobotValues rest in
    if (length parts <? 1)%nat then Normal None else
    let* count := parseIntC (at_ parts 0) in
    match count with
    | Num count => Normal (Some (TitleCount count))
    | NaN => Normal None
    end
  else if decide (type = lit "CINFO") then decodeInfo CINFO rest
  else if decide (type = lit "TINFO") then decodeInfo TINFO rest
  else if decide (type = lit "SINFO") then decodeInfo SINFO rest
  else Normal None.

Definition parseRobotLineWith (line : jsstring)
  : completion (option RobotOutput) :=
  let trimmed := trim line in
  if negb (truthy trimmed) then Normal None else
  let colonIndex := indexOf trimmed ch_colon in
  if colonIndex =? -1 then Normal None else
  let type := substring trimmed 0 colonIndex in
  let rest := substringFrom trimmed (colonIndex + 1) in
  tryCatch (decodeSwitch type rest) (Normal None).

End Decoder.

(** [parseRobotLine]: the decoder over the built-in [parseInt], which
    returns a number for every string. *)
Definition parseRobotLine (line : jsstring) : completion (option RobotOutput) :=
  parseRobotLineWith (fun s => Normal (parseInt s)) line.

(** [lines.map(parseRobotLine).filter(item => item !== null)] *)
Fixpoint decodeLines (lines : list jsstring) : completion (list RobotOutput) :=
  match lines with
  | [] => Normal []
  | l :: ls =>
      let* r := parseRobotLine l in
      let* rs := decodeLines ls in
      Normal (match r with Some x => x :: rs | None => rs end)
  end.

Definition parseRobotOutput (output : jsstring) : completion (list RobotOutput) :=
  decodeLines (split ch_newline output).

(** ** Insertion-ordered maps: the JavaScript [Map] where order matters

    [titlesMap] is read back with [Array.from(titlesMap.values())], so the
    order of first insertion is part of its contents.  It is an association
    list with at most one entry per key. *)
Module JsMap.
Section Ops.
Context {K V : Type} `{EqDecision K}.

Definition t := list (K * V).

Definition empty : t := [].

Fixpoint get (k : K) (m : t) : option V :=
  match m with
  | [] => None
  | (k', v) :: m' => if decide (k' = k) then Some v else get k m'
  end.

Definition has (k : K) (m : t) : bool :=
  match get k m with Some _ => true | None => false end.

(** [m.set(k, v)]: an existing key keeps its position, a new key goes
    last. *)
Fixpoint set (k : K) (v : V) (m : t) : t :=
  match m with
  | [] => [(k, v)]
  | (k', v') :: m' =>
      if decide (k' = k) then (k, v) :: m' else (k', v') :: set k v m'
  end.

Definition keys (m : t) : list K := fst <$> m.
Definition values (m : t) : list V := snd <$> m.
End Ops.
Arguments t : clear implicits.
End JsMap.

(** ** Disc information (src/lib/types.ts) *)

(** [Map<AttributeId, string>]: only its lookups are observed, so it is a
    finite map from the numeric key. *)
Abbreviation Attributes := (gmap Z (list N)).

Module StreamInfo.
Record t := mk { id : Z; attributes : Attributes }.
End StreamInfo.

Module TitleInfo.
Record t := mk {
  id : Z;
  attributes : Attributes;
  streams : list StreamInfo.t
}.
End TitleInfo.

Module DiscInfo.
Record t := mk {
  attributes : Attributes;
  titles : list TitleInfo.t
}.
End DiscInfo.

(** ** The aggregators *)

(** The two maps a pass of [parseDiscInfo] fills. *)
Record AggState := mkAgg {
  discAttributes : Attributes;
  titlesMap : JsMap.t Z TitleInfo.t
}.

Definition aggInit : AggState := mkAgg ∅ JsMap.empty.

(** The title branch, shared by both aggregators:
    [if (!titlesMap.has(id)) titlesMap.set(id, {id, attributes: new Map(),
    streams: []}); const title = titlesMap.get(id)!;
    title.attributes.set(code, value)].
    The object [title] is the one stored in [titlesMap], so the write to
    its [attributes] is a write to the stored entry; reading a property of
    [undefined] throws. *)
Definition writeTitle (id code : Z) (value : jsstring)
    (titlesMap : JsMap.t Z TitleInfo.t) : completion (JsMap.t Z TitleInfo.t) :=
  let titlesMap :=
    if negb (JsMap.has id titlesMap)
    then JsMap.set id (TitleInfo.mk id ∅ []) titlesMap
    else titlesMap in
  match JsMap.get id titlesMap with
  | Some title =>
      Normal (JsMap.set id
                (TitleInfo.mk (TitleInfo.id title)
                   (<[code := value]> (TitleInfo.attributes title))
                   (TitleInfo.streams title))
                titlesMap)
  | None => Throw
  end.

(** One iteration of the loop of [parseDiscInfo]. *)
Definition aggStep (st : AggState) (item : RobotOutput) : completion AggState :=
  match item with
  | InfoOutput CINFO id code value =>
      Normal (mkAgg (<[id := value]> (discAttributes st)) (titlesMap st))
  | InfoOutput TINFO id code value =>
      let* tm := writeTitle id code value (titlesMap st) in
      Normal (mkAgg (discAttributes st) tm)
  | InfoOutput SINFO id code value => Normal st
  | _ => Normal st
  end.

(** [for (const item of robotOutput) body] *)
Fixpoint forOf {S A} (body : S -> A -> completion S) (items : list A) (st : S)
  : completion S :=
  match items with
  | [] => Normal st
  | item :: items' => let* st' := body st item in forOf body items' st'
  end.

Definition aggResult (st : AggState) : DiscInfo.t :=
  DiscInfo.mk (discAttributes st) (JsMap.values (titlesMap st)).

Definition parseDiscInfo (robotOutput : list RobotOutput) : completion DiscInfo.t :=
  let* st := forOf aggStep robotOutput aggInit in
  Normal (aggResult st).

(** [parseDiscInfoAdvanced] also fills [streamsMap], keyed by the string
    [`${id}-${code}`]; the key is kept as the pair it is built from. *)
Record AdvState := mkAdv {
  advDiscAttributes : Attributes;
  advTitlesMap : JsMap.t Z TitleInfo.t;
  streamsMap : JsMap.t (Z * Z) StreamInfo.t
}.

Definition advInit : AdvState := mkAdv ∅ JsMap.empty JsMap.empty.

Definition writeStream (id code : Z) (value : jsstring)
    (streamsMap : JsMap.t (Z * Z) StreamInfo.t)
  : completion (JsMap.t (Z * Z) StreamInfo.t) :=
  let key := (id, code) in
  let streamsMap :=
    if negb (JsMap.has key streamsMap)
    then JsMap.set key (StreamInfo.mk id ∅) streamsMap
    else streamsMap in
  match JsMap.get key streamsMap with
  | Some stream =>
      Normal (JsMap.set key
                (StreamInfo.mk (StreamInfo.id stream)
                   (<[code := value]> (StreamInfo.attributes stream)))
                streamsMap)
  | None => Throw
  end.

Definition advStep (st : AdvState) (item : RobotOutput) : completion AdvState :=
  match item with
  | InfoOutput CINFO id code value =>
      Normal (mkAdv (<[code := value]> (advDiscAttributes st))
                (advTitlesMap st) (streamsMap st))
  | InfoOutput TINFO id code value =>
      let* tm := writeTitle id code value (advTitlesMap st) in
      Normal (mkAdv (advDiscAttributes st) tm (streamsMap st))
  | InfoOutput SINFO id code value =>
      let* sm := writeStream id code value (streamsMap st) in
      Normal (mkAdv (advDiscAttributes st) (advTitlesMap st) sm)
  | _ => Normal st
  end.

Definition parseDiscInfoAdvanced (robotOutput : list RobotOutput)
  : completion DiscInfo.t :=
  let* st := forOf advStep robotOutput advInit in
  Normal (DiscInfo.mk (advDiscAttributes st) (JsMap.values (advTitlesMap st))).

(** ** Accessors *)

Definition isTCOUT (item : RobotOutput) : bool :=
  match item with TitleCount _ => true | _ => false end.

(** [robotOutput.find(item => item.type === "TCOUT")?.count ?? null] *)
Definition getTitleCount (robotOutput : list RobotOutput) : option Z :=
  match List.find isTCOUT robotOutput with
  | Some (TitleCount count) => Some count
  | _ => None
  end.

(** The five lines of the aggregation test of src/lib/parser_test.ts. *)
Definition five_lines : list jsstring :=
  [ lit "CINFO:1,0," ++ quoted (lit "DVD");
    lit "CINFO:32,0," ++ quoted (lit "MY_DISC");
    lit "TINFO:0,2,0," ++ quoted (lit "Title 1");
    lit "TINFO:0,16,0," ++ quoted (lit "00001.m2ts");
    lit "TINFO:1,2,0," ++ quoted (lit "Title 2") ].

(** * Vocabulary of the properties *)

(** The number of backslashes in a string. *)
Definition backslashes (s : jsstring) : nat :=
  length (filter (fun c => c = ch_backslash) s).

(** The number of backslashes of the input that are themselves escaped:
    those read while an escape is pending. *)
Fixpoint escapedBackslashes (pending : bool) (s : jsstring) : nat :=
  match s with
  | [] => 0
  | c :: s' =>
      if pending
      then (if (c =? ch_backslash)%N then 1 else 0) + escapedBackslashes false s'
      else escapedBackslashes (c =? ch_backslash)%N s'
  end%nat.

(** Fields with no raw comma, double quote or backslash. *)
Definition cleanField (f : jsstring) : Prop :=
  (ch_comma ∉ f) /\ (ch_dquote ∉ f) /\ (ch_backslash ∉ f).

#[global] Instance cleanField_dec f : Decision (cleanField f).
Proof. unfold cleanField. apply _. Defined.

(** The counts of the title-count records of a sequence, in order. *)
Definition titleCounts (rs : list RobotOutput) : list Z :=
  omap (fun r => match r with TitleCount c => Some c | _ => None end) rs.

(** The values written by the disc-scope records whose [id] is [k], in
    order. *)
Definition discWrites (k : Z) (rs : list RobotOutput) : list jsstring :=
  omap (fun r =>
          match r with
          | InfoOutput CINFO id _ value =>
              if decide (id = k) then Some value else None
          | _ => None
          end) rs.

(** The [id]s of the title-scope records, in order. *)
Definition titleIds (rs : list RobotOutput) : list Z :=
  omap (fun r =>
          match r with
          | InfoOutput TINFO id _ _ => Some id
          | _ => None
          end) rs.

(** The values written by the title-scope records whose [id] is [t] and
    whose [code] is [c], in order. *)
Definition titleWrites (t c : Z) (rs : list RobotOutput) : list jsstring :=
  omap (fun r =>
          match r with
          | InfoOutput TINFO id code value =>
              if decide (id = t /\ code = c) then Some value else None
          | _ => None
          end) rs.

(** A list without its repeated elements, each kept where it is first
    seen. *)
Definition firstSeen (l : list Z) : list Z :=
  reverse (remove_dups (reverse l)).

(** What the two maps hold after the records [rs] have been read. *)
Definition AggInv (rs : list RobotOutput) (st : AggState) : Prop :=
  (forall k, discAttributes st !! k = last (discWrites k rs))
  /\ JsMap.keys (titlesMap st) = firstSeen (titleIds rs)
  /\ (forall k t,
        JsMap.get k (titlesMap st) = Some t ->
        TitleInfo.id t = k
        /\ TitleInfo.streams t = []
        /\ forall c, TitleInfo.attributes t !! c = last (titleWrites k c rs)).

(** Stream-scope records. *)
Definition isSINFO (item : RobotOutput) : bool :=
  match item with InfoOutput SINFO _ _ _ => true | _ => false end.

(** The values written by the disc-scope records whose [code] is [k]. *)
Definition discWritesByCode (k : Z) (rs : list RobotOutput) : list jsstring :=
  omap (fun r =>
          match r with
          | InfoOutput CINFO _ code value =>
              if decide (code = k) then Some value else None
          | _ => None
          end) rs.

(** The recognized tags, each with its minimum number of fields and the
    positions of its integer fields. *)
Definition tagShape (tag : jsstring) : option (nat * list nat) :=
  if decide (tag = lit "MSG") then Some (5, [0; 1; 2])%nat
  else if decide (tag = lit "PRGC") then Some (3, [0; 1])%nat
  else if decide (tag = lit "PRGT") then Some (3, [0; 1])%nat
  else if decide (tag = lit "PRGV") then Some (3, [0; 1; 2])%nat
  else if decide (tag = lit "DRV") then Some (6, [0; 3])%nat
  else if decide (tag = lit "TCOUT") then Some (1, [0])%nat
  else if decide (tag = lit "CINFO") then Some (3, [0; 1])%nat
  else if decide (tag = lit "TINFO") then Some (3, [0; 1])%nat
  else if decide (tag = lit "SINFO") then Some (3, [0; 1])%nat
  else None.

(** A base-10 integer numeral: an optional sign, then one or more decimal
    digits and nothing else. *)
Definition isDecimalNumeral (s : jsstring) : bool :=
  let ds :=
    match s with
    | c :: s' => if ((c =? 45) || (c =? 43))%N then s' else s
    | [] => []
    end in
  truthy ds && forallb (isDigit 10) ds.

(** Disc-scope and title-scope records, the only ones the aggregators
    read into their result. *)
Definition isDiscOrTitleInfo (item : RobotOutput) : bool :=
  match item with
  | InfoOutput CINFO _ _ _ | InfoOutput TINFO _ _ _ => true
  | _ => false
  end.

(** Disc-scope records whose two integer fields coincide. *)
Definition discIdIsCode (item : RobotOutput) : Prop :=
  match item with
  | InfoOutput CINFO id code _ => id = code
  | _ => True
  end.

(** Payloads with no double quote and no backslash. *)
Definition plainPayload (s : jsstring) : Prop :=
  (ch_dquote ∉ s) /\ (ch_backslash ∉ s).

#[global] Instance plainPayload_dec s : Decision (plainPayload s).
Proof. unfold plainPayload. apply _. Defined.

(** The robot-mode writing of a string field, the inverse of what the
    tokenizer undoes: a backslash before every backslash and every double
    quote, the whole between double quotes. *)
Definition escapeChar (c : char) : jsstring :=
  if ((c =? ch_backslash) || (c =? ch_dquote))%N then [ch_backslash; c] else [c].

Definition escape (f : jsstring) : jsstring := concat (map escapeChar f).

Definition encodeField (f : jsstring) : jsstring := quoted (escape f).

(** [e] is a way of writing the field [f]: read outside quotes with no
    escape pending, it appends [f] to the buffer and leaves the scan
    outside quotes with no escape pending. *)
Definition encodes (e f : jsstring) : Prop :=
  forall vs cur,
    tokScan (mkTok vs cur false false) e = mkTok vs (cur ++ f) false false.

(** [prependTo cur pieces] adds [cur] in front of the first piece. *)
Definition prependTo (cur : jsstring) (pieces : list jsstring) :=
  match pieces with
  | p :: ps => (cur ++ p) :: ps
  | [] => [cur]
  end.

(** The characters and fields the scan has produced so far. *)
Definition tokSize (st : TokState) : nat :=
  length (concat (values st)) + length (values st) + length (current st).

(** Strings made of white space only. *)
Definition allWhiteSpace (s : jsstring) : Prop :=
  Forall (fun c => isWhiteSpace c = true) s.

#[global] Instance allWhiteSpace_dec s : Decision (allWhiteSpace s).
Proof. unfold allWhiteSpace. apply _. Defined.

(** ** The line format, for the round trips *)

(** The digits of a decimal number, most significant first, as code units. *)
Fixpoint uintChars (u : Decimal.uint) : jsstring :=
  match u with
  | Decimal.Nil => []
  | Decimal.D0 u => 48%N :: uintChars u
  | Decimal.D1 u => 49%N :: uintChars u
  | Decimal.D2 u => 50%N :: uintChars u
  | Decimal.D3 u => 51%N :: uintChars u
  | Decimal.D4 u => 52%N :: uintChars u
  | Decimal.D5 u => 53%N :: uintChars u
  | Decimal.D6 u => 54%N :: uintChars u
  | Decimal.D7 u => 55%N :: uintChars u
  | Decimal.D8 u => 56%N :: uintChars u
  | Decimal.D9 u => 57%N :: uintChars u
  end.

(** The base-10 numeral of an integer: a minus sign for a negative number,
    then its digits with no leading zero (a single 0 for zero). *)
Definition decimal (z : Z) : jsstring :=
  match Z.to_int z with
  | Decimal.Pos u => uintChars u
  | Decimal.Neg u => 45%N :: uintChars u
  end.

(** One step of [digitsValue] in radix 10. *)
Definition decimalStep (acc : Z) (c : N) : Z := acc * 10 + default 0 (digitValue c).

(** A field of a robot-mode line, as written and as the tokenizer returns
    it: a number is written bare, a string escaped between quotes, a flag
    as 1 or 0. *)
Definition numberField (z : Z) : jsstring * jsstring := (decimal z, decimal z).
Definition stringField (f : jsstring) : jsstring * jsstring := (encodeField f, f).
Definition boolField (b : bool) : jsstring * jsstring :=
  let s := if b then lit "1" else lit "0" in (s, s).

(** The tag of the line of a record. *)
Definition tagOf (r : RobotOutput) : jsstring :=
  match r with
  | MsgOutput _ _ _ _ _ _ => lit "MSG"
  | ProgressTitle PRGC _ _ _ => lit "PRGC"
  | ProgressTitle PRGT _ _ _ => lit "PRGT"
  | ProgressValue _ _ _ => lit "PRGV"
  | DriveInfo _ _ _ _ _ _ => lit "DRV"
  | TitleCount _ => lit "TCOUT"
  | InfoOutput CINFO _ _ _ => lit "CINFO"
  | InfoOutput TINFO _ _ _ => lit "TINFO"
  | InfoOutput SINFO _ _ _ => lit "SINFO"
  end.

(** The fields of the line of a record, in the order of the formats
    documented in src/lib/types.ts: [MSG:code,flags,count,message,format,
    param0,...], [PRGC:code,id,name], [PRGV:current,total,max],
    [DRV:index,visible,enabled,flags,drive name,disc name], [TCOUT:count],
    [CINFO:id,code,value] (the same for TINFO and SINFO). *)
Definition wireFields (r : RobotOutput) : list (jsstring * jsstring) :=
  match r with
  | MsgOutput code flags count message format params =>
      [numberField code; numberField flags; numberField count;
       stringField message; stringField format] ++ (stringField <$> params)
  | ProgressTitle _ code id name =>
      [numberField code; numberField id; stringField name]
  | ProgressValue current total max =>
      [numberField current; numberField total; numberField max]
  | DriveInfo index visible enabled flags driveName discName =>
      [numberField index; boolField visible; boolField enabled;
       numberField flags; stringField driveName; stringField discName]
  | TitleCount count => [numberField count]
  | InfoOutput _ id code value =>
      [numberField id; numberField code; stringField value]
  end.

(** The robot-mode line of a record. *)
Definition formatRecord (r : RobotOutput) : jsstring :=
  tagOf r ++ ch_colon :: join [ch_comma] ((wireFields r).*1).

(** Strings whose last code unit is not white space. *)
Definition endsBlack (s : jsstring) : Prop :=
  match last s with Some c => isWhiteSpace c = false | None => False end.

(** The string fields of a record. *)
Definition stringFields (r : RobotOutput) : list jsstring :=
  match r with
  | MsgOutput _ _ _ message format params => message :: format :: params
  | ProgressTitle _ _ _ name => [name]
  | ProgressValue _ _ _ => []
  | DriveInfo _ _ _ _ driveName discName => [driveName; discName]
  | TitleCount _ => []
  | InfoOutput _ _ _ value => [value]
  end.

(** Records none of whose string fields holds a line feed. *)
Definition noLineFeed (r : RobotOutput) : Prop :=
  Forall (fun f => ch_newline ∉ f) (stringFields r).

(** ** The command builder (src/lib/command.ts) *)

(** A property of an options object: not there, there with the value
    [undefined], or there with a value.  The tests [x !== undefined] and
    the truthiness tests do not tell the first two apart; the object
    spread does. *)
Inductive prop (A : Type) :=
| Absent
| Undefined
| Value (a : A).
Arguments Absent {A}.
Arguments Undefined {A}.
Arguments Value {A} a.

(** [x !== undefined ? Some x : None] *)
Definition defined {A} (p : prop A) : option A :=
  match p with Value a => Some a | _ => None end.

(** The truthiness of a boolean property. *)
Definition isTrue (p : prop bool) : bool :=
  match p with Value true => true | _ => false end.

(** An options object: the properties of [MakeMkvOptions],
    [ConversionOptions], [BackupOptions] and [StreamingOptions], whose
    intersections the builders take.  [debug] is a boolean or a string. *)
Record Options := mkOptions {
  messages : prop jsstring;
  progress : prop jsstring;
  debug : prop (bool + jsstring);
  directio : prop bool;
  noscan : prop bool;
  cache : prop Z;
  robot : prop bool;
  minlength : prop Z;
  decrypt : prop bool;
  upnp : prop bool;
  bindip : prop jsstring;
  bindport : prop Z
}.

(** The object [{}]. *)
Definition noOptions : Options :=
  mkOptions Absent Absent Absent Absent Absent Absent Absent Absent Absent
    Absent Absent Absent.

(** [{ p: d, ...options }] at the property [p]: the spread copies the
    property of [options] whenever it is there, [undefined] included. *)
Definition spreadOver {A} (d : prop A) (p : prop A) : prop A :=
  match p with Absent => d | _ => p end.

Inductive CommandName := CmdInfo | CmdMkv | CmdBackup | CmdStream.

Definition commandWord (c : CommandName) : jsstring :=
  match c with
  | CmdInfo => lit "info"
  | CmdMkv => lit "mkv"
  | CmdBackup => lit "backup"
  | CmdStream => lit "stream"
  end.

(** [CommandSpec]; [options] is optional. *)
Record CommandSpec := mkSpec {
  command : CommandName;
  args : list jsstring;
  options : option Options
}.

(** The [titles] argument of [buildMkvCommand]: ["all"] or an array of
    numbers. *)
Inductive Titles := AllTitles | TitleList (l : list Z).

(** [`${b}`] for a boolean. *)
Definition boolToString (b : bool) : jsstring :=
  if b then lit "true" else lit "false".

Definition startsWithDash (s : jsstring) : bool :=
  match s with c :: _ => (c =? 45)%N | [] => false end.

Section Command.

(** [`${n}`] for a number: the conversion of numbers to strings is left
    open. *)
Variable numberToString : Z -> jsstring.

Definition buildGeneralArgs (options : Options) : list jsstring :=
  match defined (messages options) with
  | Some m => [lit "--messages=" ++ m]
  | None => []
  end
  ++ match defined (progress options) with
     | Some p => [lit "--progress=" ++ p]
     | None => []
     end
  ++ match defined (debug options) with
     | Some (inl true) => [lit "--debug"]
     | Some (inl false) => []
     | Some (inr s) => [lit "--debug=" ++ s]
     | None => []
     end
  ++ match defined (directio options) with
     | Some d => [lit "--directio=" ++ boolToString d]
     | None => []
     end
  ++ (if isTrue (noscan options) then [lit "--noscan"] else [])
  ++ match defined (cache options) with
     | Some c => [lit "--cache=" ++ numberToString c]
     | None => []
     end
  ++ (if isTrue (robot options) then [lit "-r"] else []).

Definition buildStreamingArgs (options : Options) : list jsstring :=
  match defined (upnp options) with
  | Some u => [lit "--upnp=" ++ boolToString u]
  | None => []
  end
  ++ match defined (bindip options) with
     | Some ip => [lit "--bindip=" ++ ip]
     | None => []
     end
  ++ match defined (bindport options) with
     | Some p => [lit "--bindport=" ++ numberToString p]
     | None => []
     end.

Definition buildBackupArgs (options : Options) : list jsstring :=
  if isTrue (decrypt options) then [lit "--decrypt"] else [].

Definition buildConversionArgs (options : Options) : list jsstring :=
  match defined (minlength options) with
  | Some m => [lit "--minlength=" ++ numberToString m]
  | None => []
  end.

(** [buildGeneralArgs(spec.options)], with the default [{}] for a missing
    [options]. *)
Definition buildCommand (spec : CommandSpec) : list jsstring :=
  buildGeneralArgs (default noOptions (options spec))
  ++ commandWord (command spec) :: args spec.

(** [`disc:${discIndex}`] *)
Definition discArg (discIndex : Z) : jsstring :=
  lit "disc:" ++ numberToString discIndex.

(** [{ robot: true, ...options }] *)
Definition withRobot (o : Options) : Options :=
  mkOptions (messages o) (progress o) (debug o) (directio o) (noscan o)
    (cache o) (spreadOver (Value true) (robot o)) (minlength o) (decrypt o)
    (upnp o) (bindip o) (bindport o).

(** [{ robot: true, cache: 1, ...options }] *)
Definition withRobotAndCache (o : Options) : Options :=
  mkOptions (messages o) (progress o) (debug o) (directio o) (noscan o)
    (spreadOver (Value 1) (cache o)) (spreadOver (Value true) (robot o))
    (minlength o) (decrypt o) (upnp o) (bindip o) (bindport o).

Definition buildInfoCommand (discIndex : Z) (options : Options) : CommandSpec :=
  mkSpec CmdInfo [discArg discIndex] (Some (withRobot options)).

Definition buildListDrivesCommand (options : Options) : CommandSpec :=
  mkSpec CmdInfo [lit "disc:9999"] (Some (withRobotAndCache options)).

(** [titles === "all" ? "all" : titles.join(",")] *)
Definition titleArg (titles : Titles) : jsstring :=
  match titles with
  | AllTitles => lit "all"
  | TitleList l => join [ch_comma] (numberToString <$> l)
  end.

Definition buildMkvCommand (discIndex : Z) (titles : Titles)
    (outputFolder : jsstring) (options : Options) : CommandSpec :=
  mkSpec CmdMkv
    (buildConversionArgs options
       ++ [discArg discIndex; titleArg titles; outputFolder])
    (Some options).

Definition buildBackupCommand (discIndex : Z) (outputFolder : jsstring)
    (options : Options) : CommandSpec :=
  mkSpec CmdBackup
    (buildBackupArgs options ++ [discArg discIndex; outputFolder])
    (Some options).

Definition buildStreamCommand (options : Options) : CommandSpec :=
  mkSpec CmdStream (buildStreamingArgs options) (Some options).

End Command.

(** ** The executor's robot-mode tests (src/lib/executor.ts) *)

(** [spec.options?.robot], the test of [execute]. *)
Definition specRobot (spec : CommandSpec) : bool :=
  match options spec with
  | Some o => isTrue (robot o)
  | None => false
  end.

(** [args.includes("-r") || args.includes("--robot")], the test of
    [executeRaw]. *)
Definition hasRobotMode (args : list jsstring) : bool :=
  bool_decide (lit "-r" ∈ args) || bool_decide (lit "--robot" ∈ args).

(** The tag and the payload [parseRobotLine] cuts a line into: the text
    before the first colon of the trimmed line and the text after it. *)
Definition lineTag (line : jsstring) : jsstring :=
  let trimmed := trim line in
  substring trimmed 0 (indexOf trimmed ch_colon).

Definition linePayload (line : jsstring) : jsstring :=
  let trimmed := trim line in
  substringFrom trimmed (indexOf trimmed ch_colon + 1).

(** The integers a double holds exactly, up to [Number.MAX_SAFE_INTEGER]
    in magnitude: on their numerals [parseInt] returns the integer
    itself, with no rounding. *)
Definition safeInteger (z : Z) : Prop := - 2 ^ 53 < z < 2 ^ 53.

(** The numeric fields of a record. *)
Definition numberFields (r : RobotOutput) : list Z :=
  match r with
  | MsgOutput code flags count _ _ _ => [code; flags; count]
  | ProgressTitle _ code id _ => [code; id]
  | ProgressValue current total max => [current; total; max]
  | DriveInfo index _ _ flags _ _ => [index; flags]
  | TitleCount count => [count]
  | InfoOutput _ id code _ => [id; code]
  end.

(** Records all of whose numbers are safe integers. *)
Definition safeRecord (r : RobotOutput) : Prop :=
  Forall safeInteger (numberFields r).

#[global] Instance safeRecord_dec r : Decision (safeRecord r).
Proof. unfold safeRecord, safeInteger. apply _. Defined.

(** * Properties *)

(** ** Examples from the tests *)

Example tokenize_123 :
  parseRobotValues (lit "1,2,3") = [lit "1"; lit "2"; lit "3"].
Proof. reflexivity. Qed.

Example tokenize_escapes :
  parseRobotValues
    (quoted (lit "hello\" ++ [ch_dquote] ++ lit "world")
       ++ [ch_comma] ++ quoted (lit "foo\nbar"))
  = [lit "hello" ++ [ch_dquote] ++ lit "world"; lit "foonbar"].
Proof. reflexivity. Qed.

Example parseInt_5 : parseInt (lit "5") = Num 5.
Proof. reflexivity. Qed.
Example parseInt_neg : parseInt (lit "  -42abc") = Num (-42).
Proof. reflexivity. Qed.
Example parseInt_hex : parseInt (lit "0x1F") = Num 31.
Proof. reflexivity. Qed.
Example parseInt_empty : parseInt [] = NaN.
Proof. reflexivity. Qed.
Example parseInt_word : parseInt (lit "abc") = NaN.
Proof. reflexivity. Qed.

Example decode_tcout : parseRobotLine (lit "TCOUT:5") = Normal (Some (TitleCount 5)).
Proof. vm_compute. reflexivity. Qed.
Example decode_tcout_empty : parseRobotLine (lit "TCOUT:") = Normal None.
Proof. vm_compute. reflexivity. Qed.
Example decode_invalid : parseRobotLine (lit "INVALID") = Normal None.
Proof. vm_compute. reflexivity. Qed.
Example decode_drv :
  parseRobotLine
    (lit "DRV:0,1,1,0," ++ quoted (lit "Drive 1") ++ [ch_comma] ++ quoted [])
  = Normal (Some (DriveInfo 0 true true 0 (lit "Drive 1") [])).
Proof. vm_compute. reflexivity. Qed.

Example five_lines_decoded :
  decodeLines five_lines = Normal
    [ InfoOutput CINFO 1 0 (lit "DVD");
      InfoOutput CINFO 32 0 (lit "MY_DISC");
      InfoOutput TINFO 0 2 (lit "0");
      InfoOutput TINFO 0 16 (lit "0");
      InfoOutput TINFO 1 2 (lit "0") ].
Proof. vm_compute. reflexivity. Qed.

(** ** The tokenizer *)

Lemma tokScan_app st a b : tokScan st (a ++ b) = tokScan (tokScan st a) b.
Proof. apply fold_left_app. Qed.

Lemma tokScan_cons st c s : tokScan st (c :: s) = tokScan (tokStep st c) s.
Proof. reflexivity. Qed.

Lemma backslashes_app a b : backslashes (a ++ b) = (backslashes a + backslashes b)%nat.
Proof. unfold backslashes. by rewrite filter_app, length_app. Qed.

Lemma backslashes_snoc a c :
  backslashes (a ++ [c])
  = (backslashes a + if (c =? ch_backslash)%N then 1 else 0)%nat.
Proof.
  rewrite backslashes_app. f_equal. unfold backslashes.
  destruct (N.eqb_spec c ch_backslash) as [->|Hne].
  - reflexivity.
  - rewrite filter_cons_False by done. reflexivity.
Qed.

Lemma backslashes_concat_snoc (vs : list jsstring) cur :
  backslashes (concat (vs ++ [cur]))
  = (backslashes (concat vs) + backslashes cur)%nat.
Proof.
  rewrite concat_app, backslashes_app. simpl. by rewrite app_nil_r.
Qed.

Lemma tokFinish_backslashes st :
  backslashes (concat (tokFinish st))
  = (backslashes (concat (values st)) + backslashes (current st))%nat.
Proof.
  unfold tokFinish. destruct st as [vs cur q e]; simpl.
  destruct cur as [|c cur]; simpl.
  - destruct vs as [|v vs]; simpl.
    + reflexivity.
    + change (v ++ concat (vs ++ [[]])) with (concat ((v :: vs) ++ [[]])).
      by rewrite backslashes_concat_snoc.
  - by rewrite backslashes_concat_snoc.
Qed.

Lemma tokScan_backslashes input : forall st,
  let st' := tokScan st input in
  (backslashes (concat (values st')) + backslashes (current st'))%nat
  = (backslashes (concat (values st)) + backslashes (current st)
     + escapedBackslashes (escaped st) input)%nat.
Proof.
  induction input as [|c input IH]; intros st; simpl.
  - lia.
  - specialize (IH (tokStep st c)). simpl in IH.
    change (fold_left tokStep input (tokStep st c))
      with (tokScan (tokStep st c) input).
    rewrite IH. clear IH.
    destruct st as [vs cur q e]. unfold tokStep; simpl.
    destruct e; simpl.
    + rewrite backslashes_snoc. lia.
    + destruct (N.eqb_spec c ch_backslash) as [->|Hbs]; simpl; [lia|].
      destruct (N.eqb_spec c ch_dquote) as [->|Hdq]; simpl; [lia|].
      destruct ((c =? ch_comma)%N && negb q); simpl.
      * rewrite backslashes_concat_snoc. unfold backslashes at 3. simpl. lia.
      * rewrite backslashes_snoc.
        destruct (N.eqb_spec c ch_backslash); [done|]. lia.
Qed.

Lemma parseRobotValues_backslash_count input :
  backslashes (concat (parseRobotValues input))
  = escapedBackslashes false input.
Proof.
  unfold parseRobotValues. rewrite tokFinish_backslashes.
  pose proof (tokScan_backslashes input tokInit) as H. simpl in H.
  exact H.
Qed.

(** A payload in which no backslash follows an escaping backslash yields
    fields free of backslashes. *)
Corollary parseRobotValues_no_backslash input f :
  escapedBackslashes false input = 0%nat ->
  f ∈ parseRobotValues input -> ch_backslash ∉ f.
Proof.
  intros H0 Hf Hin.
  pose proof (parseRobotValues_backslash_count input) as Hcount.
  rewrite H0 in Hcount.
  apply list_elem_of_split in Hf as (l1 & l2 & Hl).
  rewrite Hl in Hcount.
  rewrite concat_app, backslashes_app in Hcount. simpl in Hcount.
  rewrite backslashes_app in Hcount.
  assert (backslashes f <> 0%nat); [|lia].
  unfold backslashes. intros Hlen. apply length_zero_iff_nil in Hlen.
  assert (ch_backslash ∈ filter (fun c => c = ch_backslash) f) as Hx
    by (apply list_elem_of_filter; done).
  rewrite Hlen in Hx. by apply not_elem_of_nil in Hx.
Qed.

(** C5. A backslash met while no escape is pending is dropped and the code
    unit after it is appended to the current field as it is, whatever it
    is; a backslash at the very end is dropped too.  Backslash-n therefore
    yields the letter n, not a line feed.  Every backslash found in the
    output fields is accounted for by a backslash of the input that was
    itself escaped, so none of them is an escaping backslash. *)
Theorem parseRobotValues_backslash :
  (forall vs cur q c rest,
     tokScan (mkTok vs cur q false) (ch_backslash :: c :: rest)
     = tokScan (mkTok vs (cur ++ [c]) q false) rest)
  /\ (forall vs cur q,
        tokFinish (tokScan (mkTok vs cur q false) [ch_backslash])
        = tokFinish (mkTok vs cur q false))
  /\ parseRobotValues (lit "\n") = [lit "n"]
  /\ parseRobotValues (lit "\n") <> [[ch_newline]]
  /\ (forall input,
        backslashes (concat (parseRobotValues input))
        = escapedBackslashes false input).
Proof.
  split; [|split; [|split; [|split]]].
  - intros vs cur q c rest. reflexivity.
  - intros vs cur q. reflexivity.
  - reflexivity.
  - discriminate.
  - apply parseRobotValues_backslash_count.
Qed.

(** Without a comma in the input no field is pushed during the scan. *)
Lemma tokScan_values_no_comma s : forall st,
  ch_comma ∉ s -> values (tokScan st s) = values st.
Proof.
  induction s as [|c s IH]; intros st Hnin; [reflexivity|].
  apply not_elem_of_cons in Hnin as [Hc Hs].
  rewrite tokScan_cons, (IH _ Hs).
  destruct st as [vs cur q e]. unfold tokStep; simpl.
  destruct e; simpl; [reflexivity|].
  destruct (c =? ch_backslash)%N; simpl; [reflexivity|].
  destruct (c =? ch_dquote)%N; simpl; [reflexivity|].
  destruct (N.eqb_spec c ch_comma) as [->|_]; [done|reflexivity].
Qed.

(** C4 (as the program behaves). The empty payload yields no field, and so
    does the payload made of one empty quoted string: both quotes are
    dropped, the buffer is empty and no comma has produced a field, so the
    final append does not fire.  In general an empty last field is there
    only after a comma has produced a field: for every payload, when the
    last field returned is empty, the scan has pushed a field, the payload
    holds a comma and at least two fields are returned.  Conversely, once
    the scan has pushed a field, the final buffer is always appended,
    empty or not. *)
Theorem parseRobotValues_empty_payloads :
  parseRobotValues [] = []
  /\ parseRobotValues (quoted []) = []
  /\ parseRobotValues (lit "a," ++ quoted []) = [lit "a"; []]
  /\ (forall input,
        last (parseRobotValues input) = Some [] ->
        values (tokScan tokInit input) <> []
        /\ ch_comma ∈ input
        /\ (2 <= length (parseRobotValues input))%nat)
  /\ (forall input,
        values (tokScan tokInit input) <> [] ->
        parseRobotValues input
        = values (tokScan tokInit input) ++ [current (tokScan tokInit input)]).
Proof.
  split; [reflexivity|]. split; [reflexivity|]. split; [reflexivity|]. split.
  - intros input Hlast.
    pose proof (tokScan_values_no_comma input tokInit) as Hcomma.
    unfold parseRobotValues, tokFinish in *.
    destruct (tokScan tokInit input) as [vs cur q e]. simpl in *.
    destruct cur as [|c cur]; simpl in *.
    + destruct vs as [|v vs]; simpl in *; [discriminate|].
      split; [done|]. split.
      * destruct (decide (ch_comma ∈ input)) as [|Hnin]; [done|].
        by specialize (Hcomma Hnin).
      * rewrite length_app. simpl. lia.
    + rewrite last_snoc in Hlast. discriminate.
  - intros input Hvs. unfold parseRobotValues, tokFinish.
    destruct (tokScan tokInit input) as [vs cur q e]. simpl in *.
    destruct vs as [|v vs]; [done|]. simpl. by rewrite orb_true_r.
Qed.

Lemma parseRobotValues_empty_payloads_witness :
  values (tokScan tokInit (lit "a," ++ quoted [])) <> []
  /\ ch_comma ∈ lit "a," ++ quoted []
  /\ (2 <= length (parseRobotValues (lit "a," ++ quoted [])))%nat.
Proof.
  destruct parseRobotValues_empty_payloads as (_ & _ & _ & Honly & _).
  apply Honly. reflexivity.
Defined.

(** C4 as stated fails: the two-quote payload does not yield one empty
    field. *)
Lemma parseRobotValues_empty_quoted_counterexample :
  ~ (parseRobotValues [] = []
     /\ parseRobotValues [ch_dquote; ch_dquote] = [[]]).
Proof. intros [_ H]. discriminate H. Qed.

Lemma cleanField_cons c f :
  cleanField (c :: f) ->
  c <> ch_comma /\ c <> ch_dquote /\ c <> ch_backslash /\ cleanField f.
Proof.
  unfold cleanField. rewrite !not_elem_of_cons.
  intros ((? & ?) & (? & ?) & (? & ?)). repeat split; congruence || done.
Qed.

Lemma tokScan_clean f : forall vs cur,
  cleanField f ->
  tokScan (mkTok vs cur false false) f = mkTok vs (cur ++ f) false false.
Proof.
  induction f as [|c f IH]; intros vs cur Hc.
  - simpl. by rewrite app_nil_r.
  - apply cleanField_cons in Hc as (Hcomma & Hdq & Hbs & Hf).
    rewrite tokScan_cons. unfold tokStep; simpl.
    apply N.eqb_neq in Hcomma, Hdq, Hbs. rewrite Hcomma, Hdq, Hbs. simpl.
    rewrite IH by done. by rewrite <- app_assoc.
Qed.

Lemma join_snoc sep (l : list jsstring) y x :
  join sep ((l ++ [y]) ++ [x]) = join sep (l ++ [y]) ++ sep ++ x.
Proof.
  induction l as [|a l IH].
  - reflexivity.
  - change (join sep (((a :: l) ++ [y]) ++ [x]))
      with (join sep (a :: ((l ++ [y]) ++ [x]))).
    change (join sep ((a :: l) ++ [y])) with (join sep (a :: (l ++ [y]))).
    destruct l as [|b l]; simpl in *.
    + by rewrite <- !app_assoc.
    + rewrite IH. by rewrite <- !app_assoc.
Qed.

(** Scanning the join of clean fields leaves all but the last of them in
    [values] and the last one in the buffer. *)
Lemma tokScan_join (l : list jsstring) : forall x,
  Forall cleanField (l ++ [x]) ->
  tokScan tokInit (join [ch_comma] (l ++ [x])) = mkTok l x false false.
Proof.
  induction l as [|y l IH] using rev_ind; intros x Hall.
  - simpl in *. rewrite Forall_singleton in Hall.
    unfold tokInit. by rewrite tokScan_clean.
  - apply Forall_app in Hall as [Hl Hx]. rewrite Forall_singleton in Hx.
    rewrite join_snoc, tokScan_app, IH by done.
    change ([ch_comma] ++ x) with (ch_comma :: x).
    rewrite tokScan_cons. unfold tokStep; simpl.
    by rewrite tokScan_clean.
Qed.

(** C7 (as the program behaves). Joining clean fields with commas and
    tokenizing the result gives the fields back, for every sequence but the
    one made of a single empty string, whose join is the empty payload. *)
Theorem parseRobotValues_join (fields : list jsstring) :
  Forall cleanField fields ->
  fields <> [[]] ->
  parseRobotValues (join [ch_comma] fields) = fields.
Proof.
  intros Hall Hne.
  destruct fields as [|x l _] using rev_ind; [reflexivity|].
  unfold parseRobotValues. rewrite tokScan_join by done.
  unfold tokFinish; simpl.
  destruct x as [|c x]; simpl; [|reflexivity].
  destruct l as [|y l]; simpl; [done|reflexivity].
Qed.

Lemma parseRobotValues_join_witness :
  parseRobotValues (join [ch_comma] [lit "DVD"; []; lit "Title 1"])
  = [lit "DVD"; []; lit "Title 1"].
Proof.
  apply parseRobotValues_join.
  - apply (bool_decide_unpack _). vm_compute. exact I.
  - discriminate.
Defined.

(** C7 as stated fails on the sequence holding one empty string. *)
Lemma parseRobotValues_join_counterexample :
  Forall cleanField [[]]
  /\ parseRobotValues (join [ch_comma] [[]]) <> [[]].
Proof.
  split.
  - apply (bool_decide_unpack _). vm_compute. exact I.
  - discriminate.
Qed.

(** ** The title-count accessor *)

(** C8 (as the program behaves). The accessor returns the count of the
    FIRST title-count record of the sequence, which is the only one when
    there is exactly one, and no value when there is none. *)
Theorem getTitleCount_first (rs : list RobotOutput) :
  getTitleCount rs = head (titleCounts rs).
Proof.
  unfold getTitleCount.
  induction rs as [|r rs IH]; [reflexivity|].
  destruct r; simpl; try exact IH; reflexivity.
Qed.

(** C8 as stated fails: with two title-count records the accessor does
    not return the count of the last one. *)
Lemma getTitleCount_last_counterexample :
  titleCounts [TitleCount 1; TitleCount 2] <> []
  /\ getTitleCount [TitleCount 1; TitleCount 2]
     <> last (titleCounts [TitleCount 1; TitleCount 2]).
Proof. split; discriminate. Qed.

(** ** Insertion-ordered maps *)

Section JsMapFacts.
Context {K V : Type} `{EqDecision K}.
Implicit Types (m : JsMap.t K V) (k : K) (v : V).

Lemma JsMap_get_set_eq k v m : JsMap.get k (JsMap.set k v m) = Some v.
Proof.
  induction m as [|[k' v'] m IH]; simpl.
  - by rewrite decide_True.
  - destruct (decide (k' = k)); simpl.
    + by rewrite decide_True.
    + by rewrite decide_False.
Qed.

Lemma JsMap_get_set_ne k k' v m :
  k <> k' -> JsMap.get k' (JsMap.set k v m) = JsMap.get k' m.
Proof.
  intros Hne. induction m as [|[k0 v0] m IH]; simpl.
  - by rewrite decide_False.
  - destruct (decide (k0 = k)) as [->|]; simpl.
    + by rewrite !decide_False.
    + by rewrite IH.
Qed.

Lemma JsMap_set_set k v v' m :
  JsMap.set k v' (JsMap.set k v m) = JsMap.set k v' m.
Proof.
  induction m as [|[k0 v0] m IH]; simpl.
  - by rewrite decide_True.
  - destruct (decide (k0 = k)); simpl.
    + by rewrite decide_True.
    + by rewrite decide_False, IH.
Qed.

Lemma JsMap_get_None k m : JsMap.get k m = None <-> k ∉ JsMap.keys m.
Proof.
  unfold JsMap.keys. induction m as [|[k0 v0] m IH]; simpl.
  - split; [intros _; apply not_elem_of_nil|done].
  - rewrite not_elem_of_cons. destruct (decide (k0 = k)) as [->|Hne].
    + split; [done|]. intros [? _]. done.
    + rewrite IH. split; [|by intros [_ ?]]. intros ?. split; [|done].
      by intros ->.
Qed.

Lemma JsMap_get_Some k v m : JsMap.get k m = Some v -> (k, v) ∈ m.
Proof.
  induction m as [|[k0 v0] m IH]; simpl; [done|].
  destruct (decide (k0 = k)) as [->|Hne].
  - intros [= ->]. apply list_elem_of_here.
  - intros H. apply list_elem_of_further. auto.
Qed.

(** A write keeps the keys in place when the key is present, and adds
    the key at the end when it is new. *)
Lemma JsMap_keys_set k v m :
  JsMap.keys (JsMap.set k v m)
  = if JsMap.has k m then JsMap.keys m else JsMap.keys m ++ [k].
Proof.
  unfold JsMap.keys, JsMap.has. induction m as [|[k0 v0] m IH]; simpl.
  - reflexivity.
  - destruct (decide (k0 = k)) as [->|Hne]; simpl; [reflexivity|].
    change (list_fmap _ _ fst ?l) with (fst <$> l).
    rewrite IH. by destruct (JsMap.get k m).
Qed.

(** The pattern [if (!m.has(k)) m.set(k, v0); m.get(k)] always finds an
    entry: the stored one, or the fresh [v0]. *)
Lemma JsMap_get_ensure k v0 m :
  JsMap.get k (if negb (JsMap.has k m) then JsMap.set k v0 m else m)
  = Some (default v0 (JsMap.get k m)).
Proof.
  unfold JsMap.has. destruct (JsMap.get k m) as [v|] eqn:Hget; simpl.
  - exact Hget.
  - apply JsMap_get_set_eq.
Qed.

Lemma JsMap_has_true k m : JsMap.has k m = true <-> k ∈ JsMap.keys m.
Proof.
  unfold JsMap.has. destruct (JsMap.get k m) eqn:Hget.
  - split; [intros _|done].
    destruct (decide (k ∈ JsMap.keys m)) as [|Hn]; [done|].
    apply JsMap_get_None in Hn. congruence.
  - split; [done|]. intros Hin. by apply JsMap_get_None in Hget.
Qed.

(** With one entry per key, every entry is the one [get] returns. *)
Lemma JsMap_elem_get k v m :
  NoDup (JsMap.keys m) -> (k, v) ∈ m -> JsMap.get k m = Some v.
Proof.
  unfold JsMap.keys. induction m as [|[k0 v0] m IH]; simpl.
  - intros _ Hin. by apply elem_of_nil in Hin.
  - rewrite NoDup_cons. intros [Hk0 Hnd] Hin.
    apply elem_of_cons in Hin as [Heq|Hin].
    + injection Heq as -> ->. by rewrite decide_True.
    + rewrite decide_False; [by apply IH|].
      intros ->. apply Hk0.
      apply list_elem_of_fmap. by exists (k, v).
Qed.

Lemma JsMap_values_keys (f : V -> K) m :
  (forall k v, (k, v) ∈ m -> f v = k) ->
  f <$> JsMap.values m = JsMap.keys m.
Proof.
  unfold JsMap.values, JsMap.keys.
  induction m as [|[k0 v0] m IH]; intros Hf; simpl; [reflexivity|].
  rewrite (Hf k0 v0) by apply list_elem_of_here.
  f_equal. apply IH. intros k v Hin. apply Hf. by apply list_elem_of_further.
Qed.
End JsMapFacts.

(** ** Completions and loops *)

Lemma bindC_Normal {A} (c : completion A) : (let* x := c in Normal x) = c.
Proof. by destruct c. Qed.

Lemma forOf_app {S A} (body : S -> A -> completion S) (l1 l2 : list A) :
  forall st,
    forOf body (l1 ++ l2) st
    = let* st' := forOf body l1 st in forOf body l2 st'.
Proof.
  induction l1 as [|x l1 IH]; intros st; simpl; [reflexivity|].
  destruct (body st x) as [st1|]; simpl; [apply IH|reflexivity].
Qed.

Lemma forOf_snoc {S A} (body : S -> A -> completion S) (l : list A) x st :
  forOf body (l ++ [x]) st = let* st' := forOf body l st in body st' x.
Proof.
  rewrite forOf_app. destruct (forOf body l st) as [st'|]; simpl; [|reflexivity].
  apply bindC_Normal.
Qed.

(** ** The aggregator [parseDiscInfo] *)

Lemma firstSeen_snoc l x :
  firstSeen (l ++ [x])
  = if decide (x ∈ l) then firstSeen l else firstSeen l ++ [x].
Proof.
  unfold firstSeen. rewrite reverse_snoc. simpl.
  destruct (decide_rel elem_of x (reverse l)) as [Hin|Hnin];
    rewrite elem_of_reverse in *.
  - by rewrite decide_True.
  - by rewrite decide_False, reverse_cons.
Qed.

Lemma elem_of_firstSeen l x : x ∈ firstSeen l <-> x ∈ l.
Proof.
  unfold firstSeen.
  by rewrite elem_of_reverse, elem_of_remove_dups, elem_of_reverse.
Qed.

Lemma NoDup_firstSeen l : NoDup (firstSeen l).
Proof. unfold firstSeen. rewrite reverse_Permutation. apply NoDup_remove_dups. Qed.

Lemma titleWrites_nil t c rs : t ∉ titleIds rs -> titleWrites t c rs = [].
Proof.
  intros Hnin. apply elem_of_nil_inv. intros v Hv.
  apply list_elem_of_omap in Hv as (r & Hr & Hf).
  apply Hnin, list_elem_of_omap. exists r. split; [done|].
  destruct r as [| | | | |[] id code value]; try discriminate.
  destruct (decide (id = t /\ code = c)) as [[-> _]|]; [done|discriminate].
Qed.

Lemma writeTitle_eq id code value tm :
  writeTitle id code value tm
  = Normal (JsMap.set id
              (let t := default (TitleInfo.mk id ∅ []) (JsMap.get id tm) in
               TitleInfo.mk (TitleInfo.id t)
                 (<[code := value]> (TitleInfo.attributes t))
                 (TitleInfo.streams t))
              tm).
Proof.
  unfold writeTitle. rewrite JsMap_get_ensure. f_equal.
  unfold JsMap.has. destruct (JsMap.get id tm); simpl; [reflexivity|].
  apply JsMap_set_set.
Qed.

Lemma AggInv_init : AggInv [] aggInit.
Proof. repeat split; done. Qed.

(** One more record keeps the two maps in step with the records read. *)
Lemma aggStep_inv rs st r :
  AggInv rs st ->
  exists st', aggStep st r = Normal st' /\ AggInv (rs ++ [r]) st'.
Proof.
  intros (Hdisc & Hkeys & Htitles).
  assert (Hskip : titleIds [r] = [] ->
                  (forall k, discWrites k [r] = []) ->
                  (forall t c, titleWrites t c [r] = []) ->
                  AggInv (rs ++ [r]) st).
  { intros Hids Hd Ht. unfold AggInv, discWrites, titleIds, titleWrites in *.
    split; [|split].
    - intros k. rewrite omap_app, Hd, app_nil_r. apply Hdisc.
    - rewrite omap_app, Hids, app_nil_r. apply Hkeys.
    - intros k t Hget. destruct (Htitles k t Hget) as (? & ? & Hc).
      split; [done|split; [done|]]. intros c.
      rewrite omap_app, Ht, app_nil_r. apply Hc. }
  destruct r as [| | | | |[] id code value];
    try (exists st; split; [reflexivity|]; by apply Hskip).
  - (* CINFO *)
    eexists. split; [reflexivity|].
    unfold AggInv, discWrites, titleIds, titleWrites in *. simpl.
    split; [|split].
    + intros k. rewrite omap_app. simpl.
      destruct (decide (id = k)) as [->|Hne]; simpl.
      * by rewrite lookup_insert_eq, last_snoc.
      * by rewrite lookup_insert_ne, app_nil_r.
    + by rewrite omap_app, app_nil_r.
    + intros k t Hget. destruct (Htitles k t Hget) as (? & ? & Hc).
      split; [done|split; [done|]]. intros c.
      rewrite omap_app, app_nil_r. apply Hc.
  - (* TINFO *)
    simpl. rewrite writeTitle_eq. simpl. eexists. split; [reflexivity|].
    split; [|split]; simpl.
    + intros k. unfold discWrites. rewrite omap_app, app_nil_r. apply Hdisc.
    + rewrite JsMap_keys_set. unfold titleIds. rewrite omap_app. simpl.
      fold (titleIds rs). rewrite firstSeen_snoc, <- Hkeys.
      destruct (JsMap.has id (titlesMap st)) eqn:Hhas.
      * rewrite decide_True; [done|].
        apply elem_of_firstSeen. rewrite <- Hkeys. by apply JsMap_has_true.
      * rewrite decide_False; [done|]. intros Hin.
        apply elem_of_firstSeen in Hin. rewrite <- Hkeys in Hin.
        apply JsMap_has_true in Hin. congruence.
    + intros k t. destruct (decide (id = k)) as [<-|Hne].
      * rewrite JsMap_get_set_eq. intros [= <-]. simpl.
        assert (Hcode : forall c,
                   titleWrites id c (rs ++ [InfoOutput TINFO id code value])
                   = titleWrites id c rs
                       ++ (if decide (code = c) then [value] else [])).
        { intros c. unfold titleWrites. rewrite omap_app. f_equal. simpl.
          destruct (decide (code = c)) as [->|Hc].
          - by rewrite decide_True.
          - rewrite decide_False; [done|]. by intros [_ ?]. }
        destruct (JsMap.get id (titlesMap st)) as [t0|] eqn:Hget; simpl.
        -- destruct (Htitles id t0 Hget) as (Hid & Hstr & Hattr).
           split; [done|split; [done|]]. intros c. rewrite Hcode.
           destruct (decide (code = c)) as [->|Hc].
           ++ by rewrite lookup_insert_eq, last_snoc.
           ++ by rewrite lookup_insert_ne, app_nil_r.
        -- split; [done|split; [done|]]. intros c. rewrite Hcode.
           destruct (decide (code = c)) as [->|Hc].
           ++ by rewrite lookup_insert_eq, last_snoc.
           ++ rewrite lookup_insert_ne, app_nil_r by done.
              rewrite titleWrites_nil; [done|].
              apply JsMap_get_None in Hget. rewrite Hkeys in Hget.
              by rewrite elem_of_firstSeen in Hget.
      * rewrite JsMap_get_set_ne by done. intros Hget.
        destruct (Htitles k t Hget) as (? & ? & Hc).
        split; [done|split; [done|]]. intros c.
        unfold titleWrites. rewrite omap_app. simpl.
        rewrite decide_False; [|by intros [? _]].
        rewrite app_nil_r. apply Hc.
Qed.

Lemma forOf_aggStep_inv rs :
  exists st, forOf aggStep rs aggInit = Normal st /\ AggInv rs st.
Proof.
  induction rs as [|r rs IH] using rev_ind.
  - exists aggInit. split; [reflexivity|apply AggInv_init].
  - destruct IH as (st & Hrun & Hinv).
    destruct (aggStep_inv rs st r Hinv) as (st' & Hstep & Hinv').
    exists st'. split; [|done].
    by rewrite forOf_snoc, Hrun.
Qed.

(** [parseDiscInfo] returns for every sequence of records. *)
Lemma parseDiscInfo_total rs : exists d, parseDiscInfo rs = Normal d.
Proof.
  destruct (forOf_aggStep_inv rs) as (st & Hrun & _).
  exists (aggResult st). unfold parseDiscInfo. by rewrite Hrun.
Qed.

(** C1. The aggregator returns for every sequence of records.  In the
    disc attribute collection each key holds the value of the last
    disc-scope record whose [id] is that key (nothing if there is none).
    The titles are the [id]s of the title-scope records, one title per
    [id], in the order the [id]s first appear.  In the collection of the
    title with a given [id], each key holds the value of the last
    title-scope record with that [id] whose [code] is that key. *)
Theorem parseDiscInfo_writes (rs : list RobotOutput) :
  exists d,
    parseDiscInfo rs = Normal d
    /\ (forall k, DiscInfo.attributes d !! k = last (discWrites k rs))
    /\ TitleInfo.id <$> DiscInfo.titles d = firstSeen (titleIds rs)
    /\ (forall t, t ∈ DiscInfo.titles d ->
          forall c,
            TitleInfo.attributes t !! c
            = last (titleWrites (TitleInfo.id t) c rs)).
Proof.
  destruct (forOf_aggStep_inv rs) as (st & Hrun & Hdisc & Hkeys & Htitles).
  exists (aggResult st). unfold parseDiscInfo. rewrite Hrun. simpl.
  assert (Hnd : NoDup (JsMap.keys (titlesMap st)))
    by (rewrite Hkeys; apply NoDup_firstSeen).
  split; [reflexivity|split; [exact Hdisc|split]].
  - rewrite <- Hkeys. apply JsMap_values_keys. intros k t Hin.
    by destruct (Htitles k t (JsMap_elem_get k t _ Hnd Hin)).
  - intros t Hin c. unfold JsMap.values in Hin.
    apply list_elem_of_fmap in Hin as ([k t'] & -> & Hin). simpl.
    destruct (Htitles k t' (JsMap_elem_get k t' _ Hnd Hin)) as (-> & _ & Hc).
    apply Hc.
Qed.

(** ** Stream-scope records *)

Lemma forOf_aggStep_no_SINFO rs : forall st,
  forOf aggStep rs st
  = forOf aggStep (List.filter (fun r => negb (isSINFO r)) rs) st.
Proof.
  induction rs as [|r rs IH]; intros st; [reflexivity|].
  destruct r as [| | | | |[] id code value]; simpl;
    try apply IH; destruct (writeTitle _ _ _ _); simpl; auto.
Qed.

(** C9. [parseDiscInfo] returns for every sequence of records, and what it
    returns (disc attributes, titles, their order and their attributes) is
    what it returns for the sequence without its stream-scope records. *)
Theorem parseDiscInfo_ignores_SINFO (rs : list RobotOutput) :
  (exists d, parseDiscInfo rs = Normal d)
  /\ parseDiscInfo rs
     = parseDiscInfo (List.filter (fun r => negb (isSINFO r)) rs).
Proof.
  split; [apply parseDiscInfo_total|].
  unfold parseDiscInfo. by rewrite forOf_aggStep_no_SINFO.
Qed.

(** ** The two aggregators compared *)

Lemma writeStream_total id code value sm :
  exists sm', writeStream id code value sm = Normal sm'.
Proof. unfold writeStream. rewrite JsMap_get_ensure. eauto. Qed.

(** [parseDiscInfoAdvanced] keys the disc attributes by [code]. *)
Lemma advStep_inv rs st r :
  (forall k, advDiscAttributes st !! k = last (discWritesByCode k rs)) ->
  exists st',
    advStep st r = Normal st'
    /\ forall k,
         advDiscAttributes st' !! k = last (discWritesByCode k (rs ++ [r])).
Proof.
  intros Hdisc. unfold discWritesByCode in *.
  destruct r as [| | | | |[] id code value]; simpl;
    try (exists st; split; [reflexivity|];
         intros k; rewrite omap_app, app_nil_r; apply Hdisc).
  - eexists. split; [reflexivity|]. intros k. simpl.
    rewrite omap_app. simpl.
    destruct (decide (code = k)) as [->|Hne]; simpl.
    + by rewrite lookup_insert_eq, last_snoc.
    + by rewrite lookup_insert_ne, app_nil_r.
  - rewrite writeTitle_eq. simpl. eexists. split; [reflexivity|].
    intros k. simpl. rewrite omap_app, app_nil_r. apply Hdisc.
  - destruct (writeStream_total id code value (streamsMap st)) as (sm & ->).
    simpl. eexists. split; [reflexivity|].
    intros k. simpl. rewrite omap_app, app_nil_r. apply Hdisc.
Qed.

Lemma parseDiscInfoAdvanced_attributes rs :
  exists d,
    parseDiscInfoAdvanced rs = Normal d
    /\ forall k, DiscInfo.attributes d !! k = last (discWritesByCode k rs).
Proof.
  unfold parseDiscInfoAdvanced.
  assert (exists st, forOf advStep rs advInit = Normal st
                     /\ forall k, advDiscAttributes st !! k
                                  = last (discWritesByCode k rs))
    as (st & -> & Hdisc).
  { induction rs as [|r rs IH] using rev_ind.
    - exists advInit. split; [reflexivity|done].
    - destruct IH as (st & Hrun & Hinv).
      destruct (advStep_inv rs st r Hinv) as (st' & Hstep & Hinv').
      exists st'. split; [|done]. by rewrite forOf_snoc, Hrun. }
  simpl. eauto.
Qed.

(** C10 (amended). The two aggregators return different disc attribute
    collections for every sequence holding a disc-scope record whose [id]
    is the [code] of no disc-scope record of the sequence, for instance a
    sequence with a single disc-scope record whose [id] and [code]
    differ: [parseDiscInfo] has an entry under that [id],
    [parseDiscInfoAdvanced] has none. *)
Theorem aggregators_differ (rs : list RobotOutput) (id code : Z) (value : jsstring) :
  InfoOutput CINFO id code value ∈ rs ->
  (forall id' code' value', InfoOutput CINFO id' code' value' ∈ rs -> code' <> id) ->
  exists d1 d2,
    parseDiscInfo rs = Normal d1
    /\ parseDiscInfoAdvanced rs = Normal d2
    /\ DiscInfo.attributes d1 <> DiscInfo.attributes d2.
Proof.
  intros Hin Hcodes.
  destruct (forOf_aggStep_inv rs) as (st & Hrun & Hdisc & _).
  destruct (parseDiscInfoAdvanced_attributes rs) as (d2 & Hadv & Hdisc2).
  exists (aggResult st), d2. split; [|split; [done|]].
  { unfold parseDiscInfo. by rewrite Hrun. }
  simpl. intros Heq.
  assert (Hsome : is_Some (last (discWrites id rs))).
  { apply last_is_Some. intros Hnil.
    assert (value ∈ discWrites id rs) as Hv.
    { apply list_elem_of_omap. eexists. split; [exact Hin|].
      simpl. by rewrite decide_True. }
    rewrite Hnil in Hv. by apply elem_of_nil in Hv. }
  assert (Hnone : last (discWritesByCode id rs) = None).
  { apply last_None, elem_of_nil_inv. intros v Hv.
    apply list_elem_of_omap in Hv as (r & Hr & Hf).
    destruct r as [| | | | |[] id' code' value']; try discriminate.
    destruct (decide (code' = id)) as [->|]; [|discriminate].
    by apply (Hcodes id' id value'). }
  rewrite <- Hdisc, Heq, Hdisc2, Hnone in Hsome.
  by destruct Hsome.
Qed.

Lemma aggregators_differ_witness :
  exists d1 d2,
    parseDiscInfo [InfoOutput CINFO 1 0 (lit "DVD")] = Normal d1
    /\ parseDiscInfoAdvanced [InfoOutput CINFO 1 0 (lit "DVD")] = Normal d2
    /\ DiscInfo.attributes d1 <> DiscInfo.attributes d2.
Proof.
  apply (aggregators_differ _ 1 0 (lit "DVD")).
  - apply list_elem_of_here.
  - intros id' code' value' Hin.
    apply list_elem_of_singleton in Hin. injection Hin as _ -> _. lia.
Defined.

(** C10 as stated fails: this sequence holds a disc-scope record whose
    [id] (1) differs from its [code] (2), and the two aggregators return
    the same result for it. *)
Lemma aggregators_agree_counterexample :
  let rs := [InfoOutput CINFO 1 1 (lit "a"); InfoOutput CINFO 2 2 (lit "a");
             InfoOutput CINFO 1 2 (lit "a")] in
  InfoOutput CINFO 1 2 (lit "a") ∈ rs
  /\ (1 : Z) <> 2
  /\ exists d, parseDiscInfo rs = Normal d /\ parseDiscInfoAdvanced rs = Normal d.
Proof.
  split; [|split].
  - do 2 apply list_elem_of_further. apply list_elem_of_here.
  - lia.
  - eexists. split; [reflexivity|]. vm_compute. reflexivity.
Qed.

(** ** The five lines of the parser test *)

(** C2 (what the program computes). The five lines decode to five records
    and aggregate to the disc attributes 1 -> DVD and 32 -> MY_DISC and to
    the titles 0 and 1 in that order; the decoder takes the THIRD field as
    the value of a title-scope record, so title 0 holds the message-code
    field under the keys 2 and 16, not the title name and the file name. *)
Theorem five_lines_aggregated :
  exists rs d t0 t1,
    decodeLines five_lines = Normal rs
    /\ parseDiscInfo rs = Normal d
    /\ DiscInfo.attributes d !! 1 = Some (lit "DVD")
    /\ DiscInfo.attributes d !! 32 = Some (lit "MY_DISC")
    /\ DiscInfo.titles d = [t0; t1]
    /\ TitleInfo.id t0 = 0 /\ TitleInfo.id t1 = 1
    /\ TitleInfo.attributes t0 !! 2 = Some (lit "0")
    /\ TitleInfo.attributes t0 !! 16 = Some (lit "0")
    /\ TitleInfo.attributes t0 !! 2 <> Some (lit "Title 1")
    /\ TitleInfo.attributes t0 !! 16 <> Some (lit "00001.m2ts").
Proof.
  do 4 eexists.
  split; [apply five_lines_decoded|].
  split; [vm_compute; reflexivity|].
  repeat split; discriminate.
Qed.

(** ** The decoder *)

Lemma indexOf_first (tag rest : jsstring) :
  ch_colon ∉ tag ->
  indexOf (tag ++ ch_colon :: rest) ch_colon = Z.of_nat (length tag).
Proof.
  induction tag as [|x tag IH]; intros Hnin; [reflexivity|].
  apply not_elem_of_cons in Hnin as [Hx Htag]. simpl app. simpl indexOf.
  destruct (N.eqb_spec x ch_colon) as [->|_]; [done|].
  rewrite (IH Htag).
  destruct (Z.eqb_spec (Z.of_nat (length tag)) (-1)); simpl length; lia.
Qed.

Lemma substring_tag (tag rest : jsstring) :
  substring (tag ++ ch_colon :: rest) 0 (Z.of_nat (length tag)) = tag.
Proof.
  unfold substring. cbv zeta. rewrite length_app. simpl length.
  set (n := Z.of_nat (length tag)).
  set (len := Z.of_nat (length tag + S (length rest))).
  assert (Hlen : len = n + 1 + Z.of_nat (length rest)) by lia.
  replace (Z.min (Z.max 0 0) len) with 0 by lia.
  replace (Z.min (Z.max n 0) len) with n by lia.
  replace (Z.to_nat (Z.max 0 n - Z.min 0 n)) with (length tag) by lia.
  replace (Z.to_nat (Z.min 0 n)) with 0%nat by lia.
  by rewrite drop_0, take_app_length.
Qed.

Lemma substringFrom_rest (tag rest : jsstring) :
  substringFrom (tag ++ ch_colon :: rest) (Z.of_nat (length tag) + 1) = rest.
Proof.
  unfold substringFrom, substring. cbv zeta.
  rewrite length_app. simpl length.
  set (n := Z.of_nat (length tag)).
  set (len := Z.of_nat (length tag + S (length rest))).
  assert (Hlen : len = n + 1 + Z.of_nat (length rest)) by lia.
  replace (Z.min (Z.max (n + 1) 0) len) with (n + 1) by lia.
  replace (Z.min (Z.max len 0) len) with len by lia.
  replace (Z.to_nat (Z.max (n + 1) len - Z.min (n + 1) len))
    with (length rest) by lia.
  replace (Z.to_nat (Z.min (n + 1) len)) with (length (tag ++ [ch_colon]))
    by (rewrite length_app; simpl; lia).
  replace (tag ++ ch_colon :: rest) with ((tag ++ [ch_colon]) ++ rest)
    by (by rewrite <- app_assoc).
  rewrite drop_app_length. by apply take_ge.
Qed.

(** A line that reads [tag:rest] after trimming goes to the [switch] with
    that tag and that payload. *)
Lemma parseRobotLineWith_split p line tag rest :
  trim line = tag ++ ch_colon :: rest ->
  ch_colon ∉ tag ->
  parseRobotLineWith p line = tryCatch (decodeSwitch p tag rest) (Normal None).
Proof.
  intros Htrim Hnin. unfold parseRobotLineWith. rewrite Htrim.
  rewrite indexOf_first by done.
  rewrite substring_tag, substringFrom_rest.
  assert (truthy (tag ++ ch_colon :: rest) = true) as -> by by destruct tag.
  simpl. destruct (Z.eqb_spec (Z.of_nat (length tag)) (-1)); [lia|done].
Qed.

Lemma tagShape_no_colon tag shape : tagShape tag = Some shape -> ch_colon ∉ tag.
Proof.
  unfold tagShape. intros H.
  repeat case_decide; try discriminate; subst tag;
    apply (bool_decide_unpack _); vm_compute; exact I.
Qed.

(** *** What [parseInt] accepts *)

Lemma isDigit_decimal c : isDigit 10 c = true -> (48 <= c <= 57)%N.
Proof.
  unfold isDigit, digitValue.
  destruct (N.leb_spec 48 c), (N.leb_spec c 57); simpl; try lia;
    destruct (N.leb_spec 97 c), (N.leb_spec c 122); simpl;
    try destruct (N.leb_spec 65 c); try destruct (N.leb_spec c 90); simpl;
    try discriminate; intros Hlt; apply Z.ltb_lt in Hlt; lia.
Qed.

Lemma digitPrefix_all R ds :
  forallb (isDigit R) ds = true -> digitPrefix R ds = ds.
Proof.
  induction ds as [|c ds IH]; simpl; [done|].
  intros H. apply andb_prop in H as [-> H]. by rewrite IH.
Qed.

Lemma trimStart_not_ws c s : isWhiteSpace c = false -> trimStart (c :: s) = c :: s.
Proof. simpl. by intros ->. Qed.

Lemma isDigit_not_ws c : (48 <= c <= 57)%N -> isWhiteSpace c = false.
Proof.
  intros H. unfold isWhiteSpace.
  repeat match goal with
  | |- context [(?a <=? ?b)%N] => destruct (N.leb_spec a b); try lia
  | |- context [(?a =? ?b)%N] => destruct (N.eqb_spec a b); try lia
  end; reflexivity.
Qed.

(** Digits only: radix 10 is kept and the whole string is read. *)
Lemma parseInt_digits sign d ds :
  forallb (isDigit 10) (d :: ds) = true ->
  match
    (let '(R, s) :=
       match d :: ds with
       | c0 :: c1 :: s' =>
           if ((c0 =? 48) && ((c1 =? 120) || (c1 =? 88)))%N then (16, s')
           else (10, d :: ds)
       | _ => (10, d :: ds)
       end in
     match digitPrefix R s with
     | [] => NaN
     | x :: xs => Num (sign * digitsValue R (x :: xs))
     end)
  with NaN => False | Num _ => True end.
Proof.
  intros Hall. pose proof (digitPrefix_all 10 _ Hall) as Hpre.
  destruct ds as [|c1 ds].
  - rewrite Hpre. exact I.
  - assert ((c1 =? 120) || (c1 =? 88) = false)%N as Hx.
    { simpl in Hall. apply andb_prop in Hall as [_ Hall].
      apply andb_prop in Hall as [Hc1 _]. apply isDigit_decimal in Hc1.
      destruct (N.eqb_spec c1 120), (N.eqb_spec c1 88); simpl; lia. }
    rewrite Hx, andb_false_r. rewrite Hpre. exact I.
Qed.

(** [parseInt] finds a number in every base-10 integer numeral. *)
Lemma parseInt_decimal_numeral s :
  isDecimalNumeral s = true -> exists z, parseInt s = Num z.
Proof.
  unfold isDecimalNumeral. intros H.
  destruct s as [|c s]; [discriminate|].
  apply andb_prop in H as [Hne Hall].
  assert (Hgoal : match parseInt (c :: s) with NaN => False | Num _ => True end);
    [|destruct (parseInt (c :: s)); [done|eauto]].
  unfold parseInt.
  destruct ((c =? 45) || (c =? 43))%N eqn:Hsign.
  - destruct s as [|d ds]; [discriminate|].
    rewrite trimStart_not_ws.
    2:{ apply orb_prop in Hsign as [Hs|Hs]; apply N.eqb_eq in Hs; by subst c. }
    destruct (c =? 45)%N eqn:H45.
    + apply (parseInt_digits (-1) d ds Hall).
    + simpl in Hsign. rewrite Hsign. apply (parseInt_digits 1 d ds Hall).
  - apply orb_false_elim in Hsign as [H45 H43].
    assert (isDigit 10 c = true) as Hc by (simpl in Hall; by apply andb_prop in Hall as [? _]).
    rewrite trimStart_not_ws by (by apply isDigit_not_ws, isDigit_decimal).
    rewrite H45, H43. apply (parseInt_digits 1 c s Hall).
Qed.

(** So a field that [parseInt] turns into [NaN] is never a base-10
    numeral: the decoder rejects no well-formed integer field. *)
Corollary parseInt_NaN_not_numeral s :
  parseInt s = NaN -> isDecimalNumeral s = false.
Proof.
  intros Hnan. destruct (isDecimalNumeral s) eqn:Hnum; [|reflexivity].
  destruct (parseInt_decimal_numeral s Hnum) as [z Hz]. congruence.
Qed.

Local Ltac pick_position Hi :=
  repeat (apply elem_of_cons in Hi as [->|Hi]);
  [..|by apply elem_of_nil in Hi].

(** C3 (as the program behaves). On a line with a recognized tag and
    enough fields, the decoder rejects the line as soon as [parseInt]
    finds no number in one of the integer fields, that is, when the field
    does not start (after white space, a sign and a 0x prefix) with a
    digit. *)
Theorem parseRobotLine_rejects_NaN line tag rest n positions i :
  trim line = tag ++ ch_colon :: rest ->
  tagShape tag = Some (n, positions) ->
  (n <= length (parseRobotValues rest))%nat ->
  i ∈ positions ->
  parseInt (at_ (parseRobotValues rest) i) = NaN ->
  parseRobotLine line = Normal None.
Proof.
  intros Htrim Hshape Hlen Hi Hnan.
  unfold parseRobotLine.
  rewrite (parseRobotLineWith_split _ line tag rest Htrim
             (tagShape_no_colon _ _ Hshape)).
  unfold tagShape in Hshape. unfold decodeSwitch, decodeInfo, decodeProgressTitle.
  set (parts := parseRobotValues rest) in *.
  repeat case_decide; try discriminate; injection Hshape as <- <-;
    cbv zeta;
    (assert ((length parts <? _)%nat = false) as -> by (apply Nat.ltb_ge; lia));
    pick_position Hi; rewrite Hnan; simpl;
    repeat (destruct (parseInt _); simpl); reflexivity.
Qed.

Lemma parseRobotLine_rejects_NaN_witness :
  parseRobotLine (lit "  PRGV:10,x20,30 ") = Normal None.
Proof.
  apply (parseRobotLine_rejects_NaN _ (lit "PRGV") (lit "10,x20,30")
           3%nat [0; 1; 2]%nat 1%nat).
  - reflexivity.
  - reflexivity.
  - vm_compute. lia.
  - apply list_elem_of_further, list_elem_of_here.
  - reflexivity.
Defined.

(** C3 as stated fails: the field 5x is not a base-10 numeral, the tag is
    recognized and the field count is met, yet the line decodes to a
    title count of 5, the number read from the prefix of the field. *)
Lemma parseRobotLine_partial_number_counterexample :
  isDecimalNumeral (lit "5x") = false
  /\ tagShape (lit "TCOUT") = Some (1%nat, [0%nat])
  /\ parseRobotValues (lit "5x") = [lit "5x"]
  /\ parseRobotLine (lit "TCOUT:5x") = Normal (Some (TitleCount 5))
  /\ parseRobotLine (lit "TCOUT:5x") <> Normal None.
Proof. repeat split. discriminate. Qed.

(** The built-in [parseInt] throws on no string, so nothing is thrown
    inside the [try] block. *)
Lemma decodeSwitch_parseInt_normal type rest :
  exists r, decodeSwitch (fun s => Normal (parseInt s)) type rest = Normal r.
Proof.
  unfold decodeSwitch, decodeInfo, decodeProgressTitle.
  set (parts := parseRobotValues rest).
  repeat case_decide; cbv zeta;
    try (destruct (length parts <? _)%nat); simpl;
    repeat (destruct (parseInt _); simpl); eauto.
Qed.

(** C6. The decoder returns for every line, whatever the numeric parser
    does (a parser that throws included): the call completes normally,
    with a record or with the rejection [null].  With the built-in
    [parseInt] nothing is thrown inside the [try] block at all.  A record
    is returned only when the [switch], run on the tag and the payload of
    that very line, completed normally with that record.  Whenever the
    [switch] on the tag and the payload of the line throws, the line is
    rejected; in particular, on a line with a known tag and enough
    fields, a numeric parser that throws on any one of the integer fields
    makes the decoder reject the line.  A parser that always throws turns
    a well-formed line into a rejection. *)
Theorem parseRobotLine_total :
  (forall p line, exists r, parseRobotLineWith p line = Normal r)
  /\ (forall line, exists r, parseRobotLine line = Normal r)
  /\ (forall type rest,
        exists r, decodeSwitch (fun s => Normal (parseInt s)) type rest = Normal r)
  /\ (forall p line,
        parseRobotLineWith p line = Normal None
        \/ exists r,
             decodeSwitch p (lineTag line) (linePayload line) = Normal (Some r)
             /\ parseRobotLineWith p line = Normal (Some r))
  /\ (forall p line,
        decodeSwitch p (lineTag line) (linePayload line) = Throw ->
        parseRobotLineWith p line = Normal None)
  /\ (forall p line tag rest n positions i,
        trim line = tag ++ ch_colon :: rest ->
        tagShape tag = Some (n, positions) ->
        (n <= length (parseRobotValues rest))%nat ->
        i ∈ positions ->
        p (at_ (parseRobotValues rest) i) = Throw ->
        decodeSwitch p tag rest = Throw
        /\ parseRobotLineWith p line = Normal None)
  /\ parseRobotLineWith (fun _ => Throw) (lit "TCOUT:5") = Normal None.
Proof.
  assert (Hany : forall p line,
             parseRobotLineWith p line = Normal None
             \/ exists r,
                  decodeSwitch p (lineTag line) (linePayload line)
                  = Normal (Some r)
                  /\ parseRobotLineWith p line = Normal (Some r)).
  { intros p line. unfold parseRobotLineWith, lineTag, linePayload.
    destruct (negb (truthy (trim line))); [by left|].
    destruct (indexOf (trim line) ch_colon =? -1); [by left|].
    destruct (decodeSwitch p _ _) as [[r|]|] eqn:Hsw; simpl;
      [right|by left|by left].
    eauto. }
  assert (Hnormal : forall p line, exists r, parseRobotLineWith p line = Normal r).
  { intros p line. destruct (Hany p line) as [->|(r & _ & ->)]; eauto. }
  split; [exact Hnormal|]. split; [intros line; apply Hnormal|].
  split; [apply decodeSwitch_parseInt_normal|].
  split; [exact Hany|]. split; [|split; [|reflexivity]].
  - intros p line Hthrow. unfold parseRobotLineWith.
    unfold lineTag, linePayload in Hthrow. cbv zeta in *.
    destruct (negb (truthy (trim line))); [reflexivity|].
    destruct (indexOf (trim line) ch_colon =? -1); [reflexivity|].
    by rewrite Hthrow.
  - intros p line tag rest n positions i Htrim Hshape Hlen Hi Hthrow.
    assert (decodeSwitch p tag rest = Throw) as Hsw.
    { unfold tagShape in Hshape.
      unfold decodeSwitch, decodeInfo, decodeProgressTitle.
      set (parts := parseRobotValues rest) in *.
      repeat case_decide; try discriminate; injection Hshape as <- <-;
        cbv zeta;
        (assert ((length parts <? _)%nat = false) as ->
           by (apply Nat.ltb_ge; lia));
        pick_position Hi;
        repeat match goal with
          | |- context [p (at_ parts ?k)] =>
              let E := fresh "E" in
              destruct (p (at_ parts k)) eqn:E; cbn [bindC]; try congruence
          end. }
    split; [exact Hsw|].
    rewrite (parseRobotLineWith_split _ line tag rest Htrim
               (tagShape_no_colon _ _ Hshape)).
    by rewrite Hsw.
Qed.

Lemma parseRobotLine_total_witness :
  decodeSwitch (fun s => if decide (s = lit "2") then Throw else Normal (parseInt s))
    (lit "PRGV") (lit "1,2,3") = Throw
  /\ parseRobotLineWith
       (fun s => if decide (s = lit "2") then Throw else Normal (parseInt s))
       (lit " PRGV:1,2,3") = Normal None.
Proof.
  destruct parseRobotLine_total as (_ & _ & _ & _ & _ & Hthrow & _).
  apply (Hthrow _ (lit " PRGV:1,2,3") (lit "PRGV") (lit "1,2,3")
           3%nat [0; 1; 2]%nat 1%nat).
  - reflexivity.
  - reflexivity.
  - vm_compute. lia.
  - apply list_elem_of_further, list_elem_of_here.
  - reflexivity.
Defined.

(** * Further properties of the aggregators *)

Lemma omap_filter_irrelevant {A B} (f : A -> option B) (p : A -> bool) l :
  (forall x, p x = false -> f x = None) ->
  omap f (List.filter p l) = omap f l.
Proof.
  intros Hp. induction l as [|x l IH]; [reflexivity|].
  cbn [List.filter]. destruct (p x) eqn:Hpx.
  - cbn [omap list_omap]. by rewrite IH.
  - cbn [omap list_omap]. by rewrite (Hp x Hpx), IH.
Qed.

Lemma firstSeen_app_seen l l' :
  (forall x, x ∈ l' -> x ∈ l) -> firstSeen (l ++ l') = firstSeen l.
Proof.
  induction l' as [|x l' IH] using rev_ind; intros Hin.
  - by rewrite app_nil_r.
  - rewrite app_assoc, firstSeen_snoc.
    rewrite decide_True.
    + apply IH. intros y Hy. apply Hin, elem_of_app. by left.
    + apply elem_of_app. left. apply Hin, elem_of_app. right.
      apply list_elem_of_here.
Qed.

Lemma firstSeen_app_prefix l l' : firstSeen l `prefix_of` firstSeen (l ++ l').
Proof.
  induction l' as [|x l' IH] using rev_ind.
  - by rewrite app_nil_r.
  - rewrite app_assoc, firstSeen_snoc. case_decide; [done|].
    by apply prefix_app_r.
Qed.

(** Two insertion-ordered maps with the same keys, one entry per key, and
    the same value under each key are the same map. *)
Lemma JsMap_ext {K V} `{EqDecision K} (m m' : JsMap.t K V) :
  JsMap.keys m = JsMap.keys m' ->
  NoDup (JsMap.keys m) ->
  (forall k v v', JsMap.get k m = Some v -> JsMap.get k m' = Some v' -> v = v') ->
  m = m'.
Proof.
  unfold JsMap.keys. revert m'.
  induction m as [|[k v] m IH]; intros [|[k' v'] m']; simpl;
    try discriminate; [done|].
  intros [= <- Hkeys] Hnd Hval. apply NoDup_cons in Hnd as [Hk Hnd].
  f_equal.
  - f_equal. apply (Hval k); by rewrite decide_True.
  - apply IH; [done|done|]. intros k0 v0 v0' H0 H0'.
    assert (k <> k0) as Hne.
    { intros ->. apply Hk. apply JsMap_get_Some in H0.
      apply list_elem_of_fmap. by exists (k0, v0). }
    apply (Hval k0); by rewrite decide_False.
Qed.

Lemma TitleInfo_ext (t t' : TitleInfo.t) :
  TitleInfo.id t = TitleInfo.id t' ->
  (forall c, TitleInfo.attributes t !! c = TitleInfo.attributes t' !! c) ->
  TitleInfo.streams t = TitleInfo.streams t' ->
  t = t'.
Proof.
  destruct t, t'; simpl. intros -> Hattr ->. f_equal. by apply map_eq.
Qed.

(** The result of [parseDiscInfo] is determined by the last value written
    under each disc key, the order in which title ids first appear, and
    the last value written under each key of each title. *)
Lemma parseDiscInfo_ext rs rs' :
  (forall k, last (discWrites k rs) = last (discWrites k rs')) ->
  firstSeen (titleIds rs) = firstSeen (titleIds rs') ->
  (forall t c, last (titleWrites t c rs) = last (titleWrites t c rs')) ->
  parseDiscInfo rs = parseDiscInfo rs'.
Proof.
  intros Hd Hids Ht.
  destruct (forOf_aggStep_inv rs) as (st & Hrun & Hdisc & Hkeys & Htitles).
  destruct (forOf_aggStep_inv rs') as (st' & Hrun' & Hdisc' & Hkeys' & Htitles').
  unfold parseDiscInfo. rewrite Hrun, Hrun'. simpl. f_equal.
  unfold aggResult. f_equal.
  - apply map_eq. intros k. by rewrite Hdisc, Hdisc', Hd.
  - f_equal. apply JsMap_ext.
    + by rewrite Hkeys, Hkeys', Hids.
    + rewrite Hkeys. apply NoDup_firstSeen.
    + intros k t t' Hget Hget'.
      destruct (Htitles k t Hget) as (Hid & Hstr & Hattr).
      destruct (Htitles' k t' Hget') as (Hid' & Hstr' & Hattr').
      apply TitleInfo_ext; [congruence| |congruence].
      intros c. by rewrite Hattr, Hattr', Ht.
Qed.

(** X1. Only the disc-scope and title-scope records count: dropping every
    other record (messages, progress, drives, title counts, stream-scope
    records) leaves the result of [parseDiscInfo] unchanged. *)
Theorem parseDiscInfo_only_disc_and_title (rs : list RobotOutput) :
  parseDiscInfo (List.filter isDiscOrTitleInfo rs) = parseDiscInfo rs.
Proof.
  apply parseDiscInfo_ext.
  - intros k. unfold discWrites. f_equal. apply omap_filter_irrelevant.
    by intros [| | | | |[] ? ? ?].
  - unfold titleIds. f_equal. apply omap_filter_irrelevant.
    by intros [| | | | |[] ? ? ?].
  - intros t c. unfold titleWrites. f_equal. apply omap_filter_irrelevant.
    by intros [| | | | |[] ? ? ?].
Qed.

Lemma length_remove_dups_le (l : list Z) :
  (length (remove_dups l) <= length l)%nat.
Proof.
  induction l as [|x l IH]; simpl; [lia|]. case_decide; simpl; lia.
Qed.

Lemma length_omap_le {A B} (f : A -> option B) (l : list A) :
  (length (omap f l) <= length l)%nat.
Proof.
  induction l as [|x l IH]; [reflexivity|].
  cbn [omap list_omap]. destruct (f x); simpl; lia.
Qed.

Lemma last_app_same {A} (l : list A) : last (l ++ l) = last l.
Proof. rewrite last_app. by destruct (last l). Qed.

(** X2. Reading the same records twice in a row changes nothing: the
    result for a sequence followed by itself is the result for the
    sequence. *)
Theorem parseDiscInfo_repeat (rs : list RobotOutput) :
  parseDiscInfo (rs ++ rs) = parseDiscInfo rs.
Proof.
  apply parseDiscInfo_ext.
  - intros k. unfold discWrites. rewrite omap_app. apply last_app_same.
  - unfold titleIds. rewrite omap_app. by apply firstSeen_app_seen.
  - intros t c. unfold titleWrites. rewrite omap_app. apply last_app_same.
Qed.

(** X3. Every title returned by [parseDiscInfo] has an [id] no other title
    has, an empty list of streams and at least one attribute; they are at
    most as many as the records read. *)
Theorem parseDiscInfo_titles_wf (rs : list RobotOutput) :
  exists d,
    parseDiscInfo rs = Normal d
    /\ NoDup (TitleInfo.id <$> DiscInfo.titles d)
    /\ (length (DiscInfo.titles d) <= length rs)%nat
    /\ forall t, t ∈ DiscInfo.titles d ->
         TitleInfo.streams t = [] /\ TitleInfo.attributes t <> ∅.
Proof.
  destruct (forOf_aggStep_inv rs) as (st & Hrun & Hdisc & Hkeys & Htitles).
  exists (aggResult st). unfold parseDiscInfo. rewrite Hrun. simpl.
  assert (Hnd : NoDup (JsMap.keys (titlesMap st)))
    by (rewrite Hkeys; apply NoDup_firstSeen).
  assert (Hids : TitleInfo.id <$> JsMap.values (titlesMap st)
                 = JsMap.keys (titlesMap st)).
  { apply JsMap_values_keys. intros k t Hin.
    by destruct (Htitles k t (JsMap_elem_get k t _ Hnd Hin)). }
  split; [reflexivity|]. split; [by rewrite Hids|]. split.
  - unfold JsMap.values. rewrite length_fmap.
    rewrite <- (length_fmap fst). fold (JsMap.keys (titlesMap st)).
    rewrite Hkeys. unfold firstSeen. rewrite length_reverse.
    etrans; [apply length_remove_dups_le|].
    rewrite length_reverse. unfold titleIds. apply length_omap_le.
  - intros t Hin. unfold JsMap.values in Hin.
    apply list_elem_of_fmap in Hin as ([k t'] & -> & Hin). simpl.
    pose proof (JsMap_elem_get k t' _ Hnd Hin) as Hget.
    destruct (Htitles k t' Hget) as (Hid & Hstr & Hattr).
    split; [done|].
    assert (k ∈ titleIds rs) as Hk.
    { apply elem_of_firstSeen. rewrite <- Hkeys.
      apply list_elem_of_fmap. by exists (k, t'). }
    apply list_elem_of_omap in Hk as (r & Hr & Hf).
    destruct r as [| | | | |[] id code value]; try discriminate.
    injection Hf as ->.
    assert (is_Some (last (titleWrites k code rs))) as [v Hv].
    { apply last_is_Some. intros Hnil.
      assert (value ∈ titleWrites k code rs) as Hin'.
      { apply list_elem_of_omap. eexists. split; [exact Hr|].
        simpl. by rewrite decide_True. }
      rewrite Hnil in Hin'. by apply elem_of_nil in Hin'. }
    intros Hempty. rewrite <- Hattr, Hempty in Hv. by rewrite lookup_empty in Hv.
Qed.

(** X4. Reading more records afterwards never removes or reorders titles,
    and the disc attributes of a concatenation are those of the second
    part laid over those of the first. *)
Theorem parseDiscInfo_app (rs1 rs2 : list RobotOutput) :
  exists d1 d2 d,
    parseDiscInfo rs1 = Normal d1
    /\ parseDiscInfo rs2 = Normal d2
    /\ parseDiscInfo (rs1 ++ rs2) = Normal d
    /\ DiscInfo.attributes d = DiscInfo.attributes d2 ∪ DiscInfo.attributes d1
    /\ (TitleInfo.id <$> DiscInfo.titles d1)
         `prefix_of` (TitleInfo.id <$> DiscInfo.titles d).
Proof.
  destruct (forOf_aggStep_inv rs1) as (st1 & Hrun1 & Hdisc1 & Hkeys1 & Htitles1).
  destruct (forOf_aggStep_inv rs2) as (st2 & Hrun2 & Hdisc2 & _).
  destruct (forOf_aggStep_inv (rs1 ++ rs2)) as (st & Hrun & Hdisc & Hkeys & Htitles).
  exists (aggResult st1), (aggResult st2), (aggResult st).
  unfold parseDiscInfo. rewrite Hrun1, Hrun2, Hrun. simpl.
  split; [done|]. split; [done|]. split; [done|]. split.
  - apply map_eq. intros k. rewrite lookup_union, Hdisc, Hdisc1, Hdisc2.
    unfold discWrites. rewrite omap_app, last_app.
    by destruct (last (omap _ rs2)), (last (omap _ rs1)).
  - assert (forall rs st, JsMap.keys (titlesMap st) = firstSeen (titleIds rs) ->
              (forall k t, JsMap.get k (titlesMap st) = Some t ->
                 TitleInfo.id t = k
                 /\ TitleInfo.streams t = []
                 /\ forall c, TitleInfo.attributes t !! c
                              = last (titleWrites k c rs)) ->
              TitleInfo.id <$> JsMap.values (titlesMap st)
              = firstSeen (titleIds rs)) as Hids.
    { intros rs0 st0 Hk Ht. rewrite <- Hk. apply JsMap_values_keys.
      intros k t Hin. assert (NoDup (JsMap.keys (titlesMap st0))) as Hnd
        by (rewrite Hk; apply NoDup_firstSeen).
      by destruct (Ht k t (JsMap_elem_get k t _ Hnd Hin)). }
    rewrite (Hids rs1 st1 Hkeys1 Htitles1), (Hids _ st Hkeys Htitles).
    unfold titleIds. rewrite omap_app. apply firstSeen_app_prefix.
Qed.

(** Both aggregators fill their title map in the same way. *)
Lemma forOf_advStep_titles rs : forall st ast,
  titlesMap st = advTitlesMap ast ->
  exists st' ast',
    forOf aggStep rs st = Normal st'
    /\ forOf advStep rs ast = Normal ast'
    /\ titlesMap st' = advTitlesMap ast'.
Proof.
  induction rs as [|r rs IH]; intros st ast Htm; [by exists st, ast|].
  destruct r as [| | | | |[] id code value]; simpl;
    try (by apply IH).
  - rewrite <- Htm, writeTitle_eq. simpl. by apply IH.
  - destruct (writeStream_total id code value (streamsMap ast)) as (sm & ->).
    simpl. by apply IH.
Qed.

(** Stream-scope records only reach [streamsMap], which
    [parseDiscInfoAdvanced] does not return. *)
Lemma forOf_advStep_no_SINFO rs : forall ast ast0,
  advDiscAttributes ast = advDiscAttributes ast0 ->
  advTitlesMap ast = advTitlesMap ast0 ->
  exists ast' ast0',
    forOf advStep rs ast = Normal ast'
    /\ forOf advStep (List.filter (fun r => negb (isSINFO r)) rs) ast0
       = Normal ast0'
    /\ advDiscAttributes ast' = advDiscAttributes ast0'
    /\ advTitlesMap ast' = advTitlesMap ast0'.
Proof.
  induction rs as [|r rs IH]; intros ast ast0 Hd Ht; [by exists ast, ast0|].
  destruct r as [| | | | |[] id code value]; simpl;
    try (by apply IH).
  - apply IH; simpl; congruence.
  - rewrite <- Ht, writeTitle_eq. simpl. by apply IH.
  - destruct (writeStream_total id code value (streamsMap ast)) as (sm & ->).
    simpl. by apply IH.
Qed.

(** X5. [parseDiscInfoAdvanced] returns for every sequence of records; its
    titles are exactly those of [parseDiscInfo]; and, like [parseDiscInfo],
    it returns the same result when the stream-scope records are
    removed. *)
Theorem parseDiscInfoAdvanced_titles (rs : list RobotOutput) :
  (exists d d',
     parseDiscInfo rs = Normal d
     /\ parseDiscInfoAdvanced rs = Normal d'
     /\ DiscInfo.titles d' = DiscInfo.titles d)
  /\ parseDiscInfoAdvanced rs
     = parseDiscInfoAdvanced (List.filter (fun r => negb (isSINFO r)) rs).
Proof.
  split.
  - destruct (forOf_advStep_titles rs aggInit advInit eq_refl)
      as (st & ast & Hrun & Hadv & Htm).
    exists (aggResult st). eexists.
    unfold parseDiscInfo, parseDiscInfoAdvanced. rewrite Hrun, Hadv. simpl.
    split; [done|]. split; [done|]. simpl. by rewrite Htm.
  - destruct (forOf_advStep_no_SINFO rs advInit advInit eq_refl eq_refl)
      as (ast & ast0 & Hrun & Hrun0 & Hd & Ht).
    unfold parseDiscInfoAdvanced. rewrite Hrun, Hrun0. simpl. by rewrite Hd, Ht.
Qed.

Lemma discWrites_by_code k rs :
  Forall discIdIsCode rs -> discWrites k rs = discWritesByCode k rs.
Proof.
  unfold discWrites, discWritesByCode.
  induction 1 as [|r rs Hr Hall IH]; [reflexivity|].
  cbn [omap list_omap]. rewrite IH.
  destruct r as [| | | | |[] id code value]; try reflexivity.
  simpl in Hr. by subst code.
Qed.

(** X6. When every disc-scope record has the same number in its two
    integer fields, the two aggregators return the same result. *)
Theorem aggregators_agree (rs : list RobotOutput) :
  Forall discIdIsCode rs ->
  parseDiscInfo rs = parseDiscInfoAdvanced rs.
Proof.
  intros Hall.
  destruct (forOf_advStep_titles rs aggInit advInit eq_refl)
    as (st & ast & Hrun & Hadv & Htm).
  destruct (forOf_aggStep_inv rs) as (st0 & Hrun0 & Hdisc & _).
  rewrite Hrun in Hrun0. injection Hrun0 as <-.
  destruct (parseDiscInfoAdvanced_attributes rs) as (d' & Hd' & Hdisc').
  unfold parseDiscInfo. rewrite Hrun, Hd'. simpl. f_equal.
  unfold parseDiscInfoAdvanced in Hd'. rewrite Hadv in Hd'. simpl in Hd'.
  injection Hd' as <-. unfold aggResult. rewrite Htm. f_equal.
  apply map_eq. intros k. rewrite Hdisc. simpl in Hdisc'. rewrite Hdisc'.
  by rewrite discWrites_by_code.
Qed.

Lemma aggregators_agree_witness :
  parseDiscInfo [InfoOutput CINFO 2 2 (lit "Name"); InfoOutput TINFO 0 9 (lit "1:30:00");
                 InfoOutput SINFO 0 1 (lit "Video")]
  = parseDiscInfoAdvanced
      [InfoOutput CINFO 2 2 (lit "Name"); InfoOutput TINFO 0 9 (lit "1:30:00");
       InfoOutput SINFO 0 1 (lit "Video")].
Proof.
  apply aggregators_agree. repeat constructor.
Defined.

(** * Further properties of the tokenizer *)

Lemma split_not_nil sep s : split sep s <> [].
Proof.
  destruct s as [|c s]; simpl; [done|].
  destruct (c =? sep)%N; [done|]. by destruct (split sep s).
Qed.

Lemma split_singleton_nil sep s : split sep s = [[]] -> s = [].
Proof.
  destruct s as [|c s]; simpl; [done|].
  destruct (c =? sep)%N.
  - intros [= H]. by apply split_not_nil in H.
  - destruct (split sep s); discriminate.
Qed.

Lemma plainPayload_cons c s :
  plainPayload (c :: s) ->
  c <> ch_dquote /\ c <> ch_backslash /\ plainPayload s.
Proof.
  unfold plainPayload. rewrite !not_elem_of_cons.
  intros ((? & ?) & (? & ?)). repeat split; congruence || done.
Qed.

(** On a plain payload the scan cuts at every comma, as [split] does. *)
Lemma tokScan_plain s : forall vs cur,
  plainPayload s ->
  let st := tokScan (mkTok vs cur false false) s in
  values st ++ [current st] = vs ++ prependTo cur (split ch_comma s)
  /\ inQuotes st = false /\ escaped st = false.
Proof.
  induction s as [|c s IH]; intros vs cur Hplain; cbv zeta.
  - simpl. by rewrite app_nil_r.
  - apply plainPayload_cons in Hplain as (Hdq & Hbs & Hplain).
    apply N.eqb_neq in Hdq, Hbs. rewrite tokScan_cons.
    assert (tokStep (mkTok vs cur false false) c
            = if (c =? ch_comma)%N
              then mkTok (vs ++ [cur]) [] false false
              else mkTok vs (cur ++ [c]) false false) as ->.
    { unfold tokStep; simpl. rewrite Hdq, Hbs. by destruct (c =? ch_comma)%N. }
    simpl split. pose proof (split_not_nil ch_comma s) as Hne.
    destruct (c =? ch_comma)%N.
    + destruct (IH (vs ++ [cur]) [] Hplain) as (Hv & Hq & He).
      rewrite Hv. split; [|done].
      rewrite <- app_assoc. simpl. rewrite app_nil_r.
      by destruct (split ch_comma s).
    + destruct (IH vs (cur ++ [c]) Hplain) as (Hv & Hq & He).
      rewrite Hv. split; [|done].
      destruct (split ch_comma s); [done|]. simpl. by rewrite <- app_assoc.
Qed.

(** X7. On a payload with no double quote and no backslash the tokenizer
    is [split(",")], but for the empty payload, which gives no field where
    [split] gives one empty field. *)
Theorem parseRobotValues_plain (s : jsstring) :
  plainPayload s ->
  parseRobotValues s = match s with [] => [] | _ => split ch_comma s end.
Proof.
  intros Hplain. destruct s as [|c s]; [reflexivity|].
  change (parseRobotValues (c :: s) = split ch_comma (c :: s)).
  destruct (tokScan_plain (c :: s) [] [] Hplain) as (Hv & _ & _).
  pose proof (split_not_nil ch_comma (c :: s)) as Hne.
  pose proof (split_singleton_nil ch_comma (c :: s)) as Hnil.
  unfold parseRobotValues, tokFinish, tokInit.
  destruct (tokScan (mkTok [] [] false false) (c :: s)) as [vs cur q e].
  destruct (split ch_comma (c :: s)) as [|p ps]; [done|].
  simpl in Hv. rewrite <- Hv in *.
  destruct cur as [|x cur]; simpl; [|reflexivity].
  destruct vs as [|v vs]; simpl; [|reflexivity].
  by specialize (Hnil eq_refl).
Qed.

Lemma parseRobotValues_plain_witness :
  parseRobotValues (lit "0,1,,x y,")
  = split ch_comma (lit "0,1,,x y,").
Proof.
  apply (parseRobotValues_plain (lit "0,1,,x y,")).
  apply (bool_decide_unpack _). vm_compute. exact I.
Defined.

Lemma encodes_clean f : cleanField f -> encodes f f.
Proof. intros Hc vs cur. by apply tokScan_clean. Qed.

Lemma tokScan_escape f : forall vs cur,
  tokScan (mkTok vs cur true false) (escape f) = mkTok vs (cur ++ f) true false.
Proof.
  induction f as [|c f IH]; intros vs cur.
  - simpl. by rewrite app_nil_r.
  - unfold escape. simpl. fold (escape f). rewrite tokScan_app.
    assert (tokScan (mkTok vs cur true false) (escapeChar c)
            = mkTok vs (cur ++ [c]) true false) as ->.
    { unfold escapeChar.
      destruct (N.eqb_spec c ch_backslash) as [->|Hbs]; [reflexivity|].
      destruct (N.eqb_spec c ch_dquote) as [->|Hdq]; [reflexivity|].
      simpl. unfold tokStep. simpl.
      apply N.eqb_neq in Hbs, Hdq. rewrite Hbs, Hdq.
      by rewrite andb_false_r. }
    rewrite IH. by rewrite <- app_assoc.
Qed.

Lemma encodes_encodeField f : encodes (encodeField f) f.
Proof.
  intros vs cur. unfold encodeField, quoted.
  rewrite tokScan_cons. unfold tokStep at 1. simpl.
  by rewrite tokScan_app, tokScan_escape.
Qed.

(** Scanning the join of written fields leaves all but the last field in
    [values] and the last one in the buffer. *)
Lemma tokScan_join_encoded (l : list (jsstring * jsstring)) : forall p,
  Forall (fun p => encodes p.1 p.2) (l ++ [p]) ->
  tokScan tokInit (join [ch_comma] ((l ++ [p]).*1)) = mkTok (l.*2) p.2 false false.
Proof.
  induction l as [|q l IH] using rev_ind; intros p Hall.
  - simpl in *. rewrite Forall_singleton in Hall. apply Hall.
  - apply Forall_app in Hall as [Hl Hp]. rewrite Forall_singleton in Hp.
    assert (Hfst : (l ++ [q]).*1 = l.*1 ++ [q.1]) by by rewrite fmap_app.
    assert (Hsnd : (l ++ [q]).*2 = l.*2 ++ [q.2]) by by rewrite fmap_app.
    rewrite (fmap_app fst (l ++ [q]) [p]), Hfst. simpl.
    rewrite join_snoc, tokScan_app, <- Hfst, IH by done.
    change ([ch_comma] ++ p.1) with (ch_comma :: p.1).
    rewrite tokScan_cons. unfold tokStep; simpl. rewrite Hsnd. apply Hp.
Qed.

Lemma parseRobotValues_join_encoded (l : list (jsstring * jsstring)) :
  Forall (fun p => encodes p.1 p.2) l ->
  l.*2 <> [[]] ->
  parseRobotValues (join [ch_comma] (l.*1)) = l.*2.
Proof.
  intros Hall Hne.
  destruct l as [|p l _] using rev_ind; [reflexivity|].
  unfold parseRobotValues. rewrite tokScan_join_encoded by done.
  rewrite fmap_app. simpl. rewrite fmap_app in Hne. simpl in Hne.
  unfold tokFinish; simpl.
  destruct (p.2) as [|c x]; simpl; [|reflexivity].
  destruct (l.*2) as [|y l2]; simpl; [done|reflexivity].
Qed.

(** X8. The tokenizer undoes the robot-mode writing of fields: whatever
    the fields hold (commas, quotes, backslashes, line feeds), writing
    each one escaped between quotes, joining with commas and tokenizing
    gives the fields back, except for the single empty field, whose
    writing is two quotes and tokenizes to nothing. *)
Theorem parseRobotValues_encodeField (fields : list jsstring) :
  fields <> [[]] ->
  parseRobotValues (join [ch_comma] (encodeField <$> fields)) = fields.
Proof.
  intros Hne.
  pose (l := (fun f => (encodeField f, f)) <$> fields).
  assert (l.*1 = encodeField <$> fields) as H1.
  { unfold l. rewrite <- list_fmap_compose. by apply list_fmap_ext. }
  assert (l.*2 = fields) as H2.
  { unfold l. rewrite <- list_fmap_compose. rewrite <- (list_fmap_id fields) at 2.
    by apply list_fmap_ext. }
  pose proof (parseRobotValues_join_encoded l) as Hjoin.
  rewrite H1, H2 in Hjoin. apply Hjoin; [|done].
  unfold l. apply Forall_fmap, Forall_forall. intros f _. simpl.
  apply encodes_encodeField.
Qed.

Lemma parseRobotValues_encodeField_witness :
  parseRobotValues
    (join [ch_comma]
       (encodeField <$> [lit "a,b"; []; lit "c\d" ++ [ch_dquote; ch_newline]]))
  = [lit "a,b"; []; lit "c\d" ++ [ch_dquote; ch_newline]].
Proof. apply parseRobotValues_encodeField. discriminate. Defined.

Lemma tokScan_size s : forall st,
  (tokSize (tokScan st s) <= tokSize st + length s)%nat.
Proof.
  induction s as [|c s IH]; intros st; simpl; [lia|].
  change (fold_left tokStep s ?st0) with (tokScan st0 s).
  etrans; [apply IH|].
  assert (tokSize (tokStep st c) <= tokSize st + 1)%nat; [|lia].
  destruct st as [vs cur q e]. unfold tokStep, tokSize; simpl.
  destruct e; simpl; [rewrite length_app; simpl; lia|].
  destruct (c =? ch_backslash)%N; simpl; [lia|].
  destruct (c =? ch_dquote)%N; simpl; [lia|].
  destruct ((c =? ch_comma)%N && negb q); simpl.
  - rewrite concat_app, !length_app. simpl. rewrite app_nil_r. lia.
  - rewrite length_app. simpl. lia.
Qed.

(** X9. The tokenizer adds nothing: the code units of all the fields plus
    the separators between them are at most as many as the code units of
    the payload. *)
Theorem parseRobotValues_size (s : jsstring) :
  (length (concat (parseRobotValues s)) + (length (parseRobotValues s) - 1)
   <= length s)%nat.
Proof.
  pose proof (tokScan_size s tokInit) as Hsize.
  unfold parseRobotValues, tokFinish.
  destruct (tokScan tokInit s) as [vs cur q e]. unfold tokSize in Hsize.
  simpl in *.
  destruct (truthy cur || (0 <? length vs)%nat) eqn:Hfin.
  - rewrite concat_app, !length_app. simpl. rewrite app_nil_r. lia.
  - apply orb_false_elim in Hfin as [_ Hlen]. apply Nat.ltb_ge in Hlen.
    destruct vs; simpl in *; lia.
Qed.

(** * Further properties of the decoder *)

Lemma trimStart_white_app ws s :
  allWhiteSpace ws -> trimStart (ws ++ s) = trimStart s.
Proof.
  induction 1 as [|c ws Hc _ IH]; [reflexivity|]. simpl. by rewrite Hc.
Qed.

Lemma trimStart_nil_white s : trimStart s = [] -> allWhiteSpace s.
Proof.
  induction s as [|c s IH]; simpl; [constructor|].
  destruct (isWhiteSpace c) eqn:Hc; [|discriminate].
  intros H. constructor; [done|by apply IH].
Qed.

Lemma trimStart_white s : allWhiteSpace s -> trimStart s = [].
Proof. induction 1 as [|c s Hc _ IH]; [reflexivity|]. simpl. by rewrite Hc. Qed.

Lemma trimStart_app_keep s t :
  trimStart s <> [] -> trimStart (s ++ t) = trimStart s ++ t.
Proof.
  induction s as [|c s IH]; simpl; [done|].
  destruct (isWhiteSpace c); [exact IH|done].
Qed.

Lemma allWhiteSpace_rev s : allWhiteSpace s -> allWhiteSpace (rev s).
Proof.
  induction 1 as [|c s Hc Hs IH]; simpl; [constructor|].
  apply Forall_app. split; [exact IH|by constructor].
Qed.

Lemma trimEnd_app_white s ws :
  allWhiteSpace ws -> trimEnd (s ++ ws) = trimEnd s.
Proof.
  intros Hws. unfold trimEnd. rewrite rev_app_distr.
  by rewrite trimStart_white_app by by apply allWhiteSpace_rev.
Qed.

(** White space around a line is removed by [trim]. *)
Lemma trim_white ws1 s ws2 :
  allWhiteSpace ws1 -> allWhiteSpace ws2 -> trim (ws1 ++ s ++ ws2) = trim s.
Proof.
  intros H1 H2. unfold trim. rewrite trimStart_white_app by done.
  destruct (trimStart s) as [|c t] eqn:Hs.
  - apply trimStart_nil_white in Hs.
    rewrite trimStart_white; [done|]. by apply Forall_app.
  - rewrite trimStart_app_keep by (by rewrite Hs).
    rewrite Hs. by apply trimEnd_app_white.
Qed.

(** X10. White space before and after a line (blanks, tabs, the carriage
    return of a CRLF line end) does not change what the line decodes
    to. *)
Theorem parseRobotLine_white_space (ws1 line ws2 : jsstring) :
  allWhiteSpace ws1 -> allWhiteSpace ws2 ->
  parseRobotLine (ws1 ++ line ++ ws2) = parseRobotLine line.
Proof.
  intros H1 H2. unfold parseRobotLine, parseRobotLineWith.
  by rewrite trim_white.
Qed.

Lemma parseRobotLine_white_space_witness :
  parseRobotLine ([32; 9]%N ++ lit "TCOUT:5" ++ [13]%N)
  = parseRobotLine (lit "TCOUT:5").
Proof.
  apply parseRobotLine_white_space;
    apply (bool_decide_unpack _); vm_compute; exact I.
Defined.

Lemma elem_of_trimStart x s : x ∈ trimStart s -> x ∈ s.
Proof.
  induction s as [|c s IH]; simpl; [done|].
  destruct (isWhiteSpace c); [|done].
  intros H. apply list_elem_of_further. by apply IH.
Qed.

Lemma elem_of_trim x s : x ∈ trim s -> x ∈ s.
Proof.
  unfold trim, trimEnd. intros H.
  apply list_elem_of_In, in_rev, list_elem_of_In in H.
  apply elem_of_trimStart in H.
  apply list_elem_of_In, in_rev, list_elem_of_In in H.
  by apply elem_of_trimStart.
Qed.

Lemma indexOf_absent s c : c ∉ s -> indexOf s c = -1.
Proof.
  induction s as [|x s IH]; [reflexivity|]. intros Hnin.
  apply not_elem_of_cons in Hnin as [Hx Hs]. simpl.
  destruct (N.eqb_spec x c) as [->|_]; [done|]. by rewrite (IH Hs).
Qed.

(** X11. A line with no colon is rejected, whatever else it holds; this
    covers the empty line and the line of white space. *)
Theorem parseRobotLine_no_colon (line : jsstring) :
  ch_colon ∉ line -> parseRobotLine line = Normal None.
Proof.
  intros Hnin. unfold parseRobotLine, parseRobotLineWith.
  destruct (negb (truthy (trim line))); [reflexivity|].
  rewrite indexOf_absent; [reflexivity|].
  intros Hin. by apply Hnin, elem_of_trim.
Qed.

Lemma parseRobotLine_no_colon_witness :
  parseRobotLine (lit "INVALID LINE") = Normal None.
Proof.
  apply parseRobotLine_no_colon.
  apply (bool_decide_unpack _). vm_compute. exact I.
Defined.

(** X12. A line whose tag (the text before the first colon) is not one of
    the nine known tags is rejected, whatever its payload; tags are
    compared exactly, case and inner spaces included. *)
Theorem parseRobotLine_unknown_tag (line tag rest : jsstring) :
  trim line = tag ++ ch_colon :: rest ->
  ch_colon ∉ tag ->
  tagShape tag = None ->
  parseRobotLine line = Normal None.
Proof.
  intros Htrim Hnin Hshape. unfold parseRobotLine.
  rewrite (parseRobotLineWith_split _ line tag rest Htrim Hnin).
  unfold tagShape in Hshape. unfold decodeSwitch.
  repeat case_decide; try discriminate. reflexivity.
Qed.

Lemma parseRobotLine_unknown_tag_witness :
  parseRobotLine (lit "tcout:5") = Normal None.
Proof.
  apply (parseRobotLine_unknown_tag _ (lit "tcout") (lit "5")).
  - reflexivity.
  - apply (bool_decide_unpack _). vm_compute. exact I.
  - reflexivity.
Defined.

(** X13. On a line with a known tag the decoder returns a record exactly
    when the payload has the minimum number of fields of the tag and
    [parseInt] finds a number in each of its integer fields; fields beyond
    the ones the tag reads are no obstacle. *)
Theorem parseRobotLine_accepts_iff line tag rest n positions :
  trim line = tag ++ ch_colon :: rest ->
  tagShape tag = Some (n, positions) ->
  (exists r, parseRobotLine line = Normal (Some r))
  <-> (n <= length (parseRobotValues rest))%nat
      /\ forall i, i ∈ positions ->
           parseInt (at_ (parseRobotValues rest) i) <> NaN.
Proof.
  intros Htrim Hshape.
  unfold parseRobotLine.
  rewrite (parseRobotLineWith_split _ line tag rest Htrim
             (tagShape_no_colon _ _ Hshape)).
  unfold tagShape in Hshape. unfold decodeSwitch, decodeInfo, decodeProgressTitle.
  set (parts := parseRobotValues rest) in *.
  repeat case_decide; try discriminate; injection Hshape as <- <-;
    cbv zeta;
    (match goal with
     | |- context [(length parts <? ?k)%nat] =>
         destruct (Nat.ltb_spec (length parts) k) as [Hlt|Hge]
     end;
     [split; [by intros [r [=]]|intros [Hlen _]; lia]|]);
    simpl;
    repeat match goal with
      | |- context [parseInt (at_ parts ?i)] =>
          let H := fresh "Hp" in
          destruct (parseInt (at_ parts i)) eqn:H; simpl
      end;
    (split;
     [ first
         [ by intros [r [=]]
         | intros _; split; [done|];
           intros i Hi; pick_position Hi; congruence ]
     | first
         [ by eauto
         | intros [_ Hall];
           exfalso;
           first [ by apply (Hall 0%nat); [set_solver|]
                 | by apply (Hall 1%nat); [set_solver|]
                 | by apply (Hall 2%nat); [set_solver|]
                 | by apply (Hall 3%nat); [set_solver|] ] ] ]).
Qed.

Lemma parseRobotLine_accepts_iff_witness :
  (exists r,
     parseRobotLine (lit "CINFO:1,6209," ++ quoted (lit "Blu-ray disc") ++ lit ",extra")
     = Normal (Some r))
  <-> (3 <= length (parseRobotValues
                      (lit "1,6209," ++ quoted (lit "Blu-ray disc") ++ lit ",extra")))%nat
      /\ forall i, i ∈ [0; 1]%nat ->
           parseInt (at_ (parseRobotValues
                            (lit "1,6209," ++ quoted (lit "Blu-ray disc")
                               ++ lit ",extra")) i) <> NaN.
Proof.
  apply (parseRobotLine_accepts_iff _ (lit "CINFO")); reflexivity.
Defined.

(** * Round trips through the line format *)

Lemma uintChars_acc u : forall acc,
  fold_left decimalStep (uintChars u) (Z.pos acc) = Z.pos (Pos.of_uint_acc u acc).
Proof.
  induction u; intros acc; simpl; [reflexivity| ..];
    rewrite <- IHu; f_equal; unfold decimalStep; simpl; lia.
Qed.

Lemma uintChars_value u :
  digitsValue 10 (uintChars u) = Z.of_N (Pos.of_uint u).
Proof.
  unfold digitsValue. change (fun acc c => acc * 10 + default 0 (digitValue c)) with decimalStep.
  induction u; simpl; try reflexivity; try exact IHu;
    match goal with
    | |- fold_left _ _ ?a = _ =>
        let p := eval vm_compute in a in
        change a with p
    end; apply uintChars_acc.
Qed.

Lemma uintChars_digits u : forallb (isDigit 10) (uintChars u) = true.
Proof. induction u; simpl; auto. Qed.

Lemma uintChars_nil u : uintChars u = [] -> u = Decimal.Nil.
Proof. by destruct u. Qed.

Lemma parseInt_digit_string sign ds :
  ds <> [] -> forallb (isDigit 10) ds = true ->
  (let '(R, s) :=
       match ds with
       | c0 :: c1 :: s' =>
           if ((c0 =? 48) && ((c1 =? 120) || (c1 =? 88)))%N then (16, s')
           else (10, ds)
       | _ => (10, ds)
       end in
     match digitPrefix R s with
     | [] => NaN
     | x :: xs => Num (sign * digitsValue R (x :: xs))
     end) = Num (sign * digitsValue 10 ds).
Proof.
  intros Hne Hall. pose proof (digitPrefix_all 10 _ Hall) as Hpre.
  destruct ds as [|d [|c1 ds]]; [done| |].
  - rewrite Hpre. reflexivity.
  - assert ((c1 =? 120) || (c1 =? 88) = false)%N as Hx.
    { simpl in Hall. apply andb_prop in Hall as [_ Hall].
      apply andb_prop in Hall as [Hc1 _]. apply isDigit_decimal in Hc1.
      destruct (N.eqb_spec c1 120), (N.eqb_spec c1 88); simpl; lia. }
    rewrite Hx, andb_false_r. rewrite Hpre. reflexivity.
Qed.

Lemma to_uint_chars_nonempty p : uintChars (Pos.to_uint p) <> [].
Proof. intros H. apply uintChars_nil in H. by apply Unsigned.to_uint_nonnil in H. Qed.

(** [parseInt] reads a base-10 numeral back to its number. *)
Lemma parseInt_decimal z : parseInt (decimal z) = Num z.
Proof.
  pose proof (DecimalZ.of_to z) as Hz. unfold decimal.
  destruct z as [|p|p]; simpl Z.to_int in *; cbv iota beta.
  - reflexivity.
  - unfold Z.of_int, Z.of_uint in Hz.
    pose proof (to_uint_chars_nonempty p) as Hne.
    pose proof (uintChars_digits (Pos.to_uint p)) as Hd.
    destruct (uintChars (Pos.to_uint p)) as [|c s] eqn:Hs; [done|].
    unfold parseInt.
    assert (isDigit 10 c = true) as Hc by (simpl in Hd; by apply andb_prop in Hd as [? _]).
    pose proof (isDigit_decimal c Hc) as Hrange.
    rewrite trimStart_not_ws by (by apply isDigit_not_ws).
    destruct (N.eqb_spec c 45); [lia|]. destruct (N.eqb_spec c 43); [lia|].
    etrans; [exact (parseInt_digit_string 1 (c :: s) Hne Hd)|].
    rewrite <- Hs, uintChars_value, Hz. f_equal.
  - unfold Z.of_int, Z.of_uint in Hz.
    pose proof (to_uint_chars_nonempty p) as Hne.
    pose proof (uintChars_digits (Pos.to_uint p)) as Hd.
    unfold parseInt. rewrite trimStart_not_ws by reflexivity.
    change (45 =? 45)%N with true. cbv iota beta.
    etrans; [exact (parseInt_digit_string (-1) _ Hne Hd)|].
    rewrite uintChars_value. f_equal. lia.
Qed.

Lemma endsBlack_app a b : endsBlack b -> endsBlack (a ++ b).
Proof.
  unfold endsBlack. rewrite last_app. by destruct (last b).
Qed.

Lemma endsBlack_all s :
  s <> [] -> Forall (fun c => isWhiteSpace c = false) s -> endsBlack s.
Proof.
  intros Hne Hall. unfold endsBlack.
  destruct (last s) as [c|] eqn:Hlast.
  - apply last_Some_elem_of in Hlast.
    by apply (proj1 (Forall_forall _ _) Hall).
  - by apply last_None in Hlast.
Qed.

Lemma endsBlack_join sep l :
  l <> [] -> Forall endsBlack l -> endsBlack (join sep l).
Proof.
  induction l as [|x l IH]; [done|]. intros _ Hall.
  apply Forall_cons in Hall as [Hx Hl].
  destruct l as [|y l]; [exact Hx|].
  change (join sep (x :: y :: l)) with (x ++ sep ++ join sep (y :: l)).
  do 2 apply endsBlack_app. by apply IH.
Qed.

Lemma trimEnd_endsBlack s : endsBlack s -> trimEnd s = s.
Proof.
  unfold endsBlack. destruct (last s) as [c|] eqn:Hlast; [|done].
  apply last_Some in Hlast as [t ->]. intros Hc.
  unfold trimEnd. rewrite rev_unit. simpl. rewrite Hc. simpl.
  by rewrite rev_involutive.
Qed.

Lemma uintChars_range u c : c ∈ uintChars u -> (48 <= c <= 57)%N.
Proof.
  induction u; simpl; intros Hin;
    try (by apply elem_of_nil in Hin);
    apply elem_of_cons in Hin as [->|Hin]; auto; lia.
Qed.

Lemma decimal_range z c : c ∈ decimal z -> c = 45%N \/ (48 <= c <= 57)%N.
Proof.
  unfold decimal. destruct (Z.to_int z) as [u|u]; intros Hin.
  - right. by apply (uintChars_range u).
  - apply elem_of_cons in Hin as [->|Hin]; [by left|].
    right. by apply (uintChars_range u).
Qed.

Lemma decimal_not_nil z : decimal z <> [].
Proof.
  unfold decimal. destruct z as [|p|p]; simpl; try done.
  apply to_uint_chars_nonempty.
Qed.

Lemma decimal_clean z : cleanField (decimal z).
Proof.
  unfold cleanField.
  repeat split; intros Hin; apply decimal_range in Hin as [Hc|Hc];
    vm_compute in Hc; try discriminate; destruct Hc as [H1 H2];
    try (by apply H1); by apply H2.
Qed.

Lemma decimal_endsBlack z : endsBlack (decimal z).
Proof.
  apply endsBlack_all; [apply decimal_not_nil|].
  apply Forall_forall. intros c Hin.
  apply decimal_range in Hin as [->|Hc]; [reflexivity|].
  by apply isDigit_not_ws.
Qed.

Lemma encodeField_endsBlack f : endsBlack (encodeField f).
Proof.
  unfold encodeField, quoted, endsBlack.
  change (ch_dquote :: escape f ++ [ch_dquote])
    with ((ch_dquote :: escape f) ++ [ch_dquote]).
  by rewrite last_snoc.
Qed.

Lemma wireFields_encodes r : Forall (fun p => encodes p.1 p.2) (wireFields r).
Proof.
  assert (Hn : forall z, encodes (numberField z).1 (numberField z).2)
    by (intros z; apply encodes_clean, decimal_clean).
  assert (Hs : forall f, encodes (stringField f).1 (stringField f).2)
    by (intros f; apply encodes_encodeField).
  assert (Hb : forall b, encodes (boolField b).1 (boolField b).2).
  { intros b. apply encodes_clean. destruct b;
      apply (bool_decide_unpack _); vm_compute; exact I. }
  destruct r; cbn [wireFields app];
    repeat first [apply List.Forall_nil
                 |apply List.Forall_cons; [first [apply Hn|apply Hs|apply Hb]|]].
  apply Forall_fmap, Forall_forall. intros f _. apply Hs.
Qed.

Lemma wireFields_endsBlack r : Forall endsBlack (wireFields r).*1.
Proof.
  assert (Hb : forall b, endsBlack (boolField b).1) by (by intros []).
  destruct r; cbn [wireFields app]; rewrite ?fmap_cons, ?fmap_app;
    cbn [app fmap list_fmap];
    repeat first
      [apply List.Forall_nil
      |apply List.Forall_cons;
       [first [apply decimal_endsBlack|apply encodeField_endsBlack|apply Hb]|]].
  change (Forall endsBlack ((stringField <$> params).*1)).
  rewrite <- list_fmap_compose.
  apply Forall_fmap, Forall_forall. intros f _. apply encodeField_endsBlack.
Qed.

Lemma wireFields_decoded r : (wireFields r).*2 <> [[]].
Proof.
  destruct r; simpl; intros [= H]; by apply decimal_not_nil in H.
Qed.

Lemma trim_formatRecord r : trim (formatRecord r) = formatRecord r.
Proof.
  unfold trim.
  assert (trimStart (formatRecord r) = formatRecord r) as ->.
  { unfold formatRecord. destruct r as [| [] | | | | []]; reflexivity. }
  apply trimEnd_endsBlack. unfold formatRecord.
  apply endsBlack_app.
  change (endsBlack ([ch_colon] ++ join [ch_comma] ((wireFields r).*1))).
  apply endsBlack_app, endsBlack_join; [|apply wireFields_endsBlack].
  by destruct r.
Qed.

Lemma tagOf_shape r : exists shape, tagShape (tagOf r) = Some shape.
Proof. destruct r as [| [] | | | | []]; eexists; reflexivity. Qed.

Local Ltac pick_tag :=
  repeat match goal with
    | |- context [decide (?a = ?b)] =>
        let Htag := fresh "Htag" in
        destruct (decide (a = b)) as [Htag|Htag];
        [try (vm_compute in Htag; discriminate Htag)
        |try (exfalso; apply Htag; reflexivity)]
    end.

(** The [switch], given the tag and the payload of the line of a record,
    rebuilds the record. *)
Lemma decodeSwitch_formatRecord (r : RobotOutput) :
  decodeSwitch (fun s => Normal (parseInt s)) (tagOf r)
    (join [ch_comma] ((wireFields r).*1))
  = Normal (Some r).
Proof.
  pose proof (parseRobotValues_join_encoded (wireFields r)
                (wireFields_encodes r) (wireFields_decoded r)) as Hparts.
  unfold decodeSwitch, decodeInfo, decodeProgressTitle.
  rewrite Hparts. clear Hparts.
  destruct r as [code flags count message format params
                | [] code id name | current total max
                | index visible enabled flags driveName discName
                | count | [] id code value];
    cbn [tagOf]; pick_tag;
    cbn [wireFields numberField stringField boolField fmap list_fmap app
           fst snd at_ nth length Nat.ltb Nat.leb];
    rewrite ?parseInt_decimal; cbn [bindC tryCatch]; try reflexivity.
  - (* MSG: the parameters *)
    do 3 f_equal. rewrite <- list_fmap_compose.
    rewrite <- (list_fmap_id params) at 2. by apply list_fmap_ext.
  - (* DRV: the two flags *)
    by destruct visible, enabled.
Qed.

(** X14. Every record whose numbers are safe integers is read back from
    its line: the decoder applied to the robot-mode line of the record
    (numbers bare, strings escaped between quotes, flags as 1 or 0)
    returns that record, whatever its strings are.  The numbers are kept
    below 2^53 in magnitude, where [parseInt] returns the integer of the
    numeral exactly; above it the program rounds to the nearest double and
    the record is not read back. *)
Theorem parseRobotLine_formatRecord (r : RobotOutput) :
  safeRecord r ->
  parseRobotLine (formatRecord r) = Normal (Some r).
Proof.
  intros _.
  destruct (tagOf_shape r) as [shape Hshape].
  unfold parseRobotLine.
  rewrite (parseRobotLineWith_split _ _ (tagOf r)
             (join [ch_comma] ((wireFields r).*1)) (trim_formatRecord r)
             (tagShape_no_colon _ _ Hshape)).
  by rewrite decodeSwitch_formatRecord.
Qed.

Lemma parseRobotLine_formatRecord_witness :
  parseRobotLine
    (formatRecord (MsgOutput 3307 0 2 (lit "File %1, title #%2")
                     (lit "back\slash") [lit "file.mkv"; []]))
  = Normal (Some (MsgOutput 3307 0 2 (lit "File %1, title #%2")
                    (lit "back\slash") [lit "file.mkv"; []])).
Proof.
  apply parseRobotLine_formatRecord.
  apply (bool_decide_unpack _). vm_compute. exact I.
Defined.

(** * Properties of [parseRobotOutput] *)

Lemma parseRobotLine_normal line : exists r, parseRobotLine line = Normal r.
Proof.
  unfold parseRobotLine, parseRobotLineWith.
  destruct (negb (truthy (trim line))); [eauto|].
  destruct (indexOf (trim line) ch_colon =? -1); [eauto|].
  destruct (decodeSwitch _ _ _); simpl; eauto.
Qed.

Lemma decodeLines_app l1 : forall l2 r1 r2,
  decodeLines l1 = Normal r1 -> decodeLines l2 = Normal r2 ->
  decodeLines (l1 ++ l2) = Normal (r1 ++ r2).
Proof.
  induction l1 as [|l l1 IH]; intros l2 r1 r2 H1 H2; simpl in *.
  - by injection H1 as <-.
  - destruct (parseRobotLine l) as [r|]; simpl in *; [|discriminate].
    destruct (decodeLines l1) as [rs|] eqn:Hrs; simpl in *; [|discriminate].
    injection H1 as <-. rewrite (IH l2 rs r2 eq_refl H2). simpl.
    by destruct r.
Qed.

Lemma decodeLines_total lines : exists rs, decodeLines lines = Normal rs.
Proof.
  induction lines as [|l lines [rs IH]]; simpl; [eauto|].
  destruct (parseRobotLine_normal l) as [r ->]. rewrite IH. simpl. eauto.
Qed.

Lemma split_app sep a b :
  split sep (a ++ sep :: b) = split sep a ++ split sep b.
Proof.
  induction a as [|c a IH]; simpl.
  - by rewrite N.eqb_refl.
  - destruct (c =? sep)%N; [by rewrite IH|].
    rewrite IH. pose proof (split_not_nil sep a).
    by destruct (split sep a).
Qed.

Lemma split_no_sep sep s : sep ∉ s -> split sep s = [s].
Proof.
  induction s as [|c s IH]; [done|]. intros Hnin.
  apply not_elem_of_cons in Hnin as [Hc Hs]. simpl.
  destruct (N.eqb_spec c sep) as [->|_]; [done|]. by rewrite (IH Hs).
Qed.

Lemma split_join sep lines :
  Forall (fun l => sep ∉ l) lines -> lines <> [] ->
  split sep (join [sep] lines) = lines.
Proof.
  induction lines as [|x lines IH]; [done|]. intros Hall _.
  apply Forall_cons in Hall as [Hx Hl].
  destruct lines as [|y lines]; [by apply split_no_sep|].
  change (join [sep] (x :: y :: lines)) with (x ++ sep :: join [sep] (y :: lines)).
  rewrite split_app, split_no_sep by done. rewrite IH by done. reflexivity.
Qed.

(** X15. Lines decode independently: [parseRobotOutput] returns for every
    text, and the records of two texts put one after the other with a
    line feed between them are the records of the first followed by the
    records of the second. *)
Theorem parseRobotOutput_app (a b : jsstring) :
  exists ra rb,
    parseRobotOutput a = Normal ra
    /\ parseRobotOutput b = Normal rb
    /\ parseRobotOutput (a ++ ch_newline :: b) = Normal (ra ++ rb).
Proof.
  unfold parseRobotOutput.
  destruct (decodeLines_total (split ch_newline a)) as [ra Ha].
  destruct (decodeLines_total (split ch_newline b)) as [rb Hb].
  exists ra, rb. split; [done|]. split; [done|].
  rewrite split_app. by apply decodeLines_app.
Qed.

Lemma elem_of_join x sep l :
  x ∈ join sep l -> x ∈ sep \/ exists e, e ∈ l /\ x ∈ e.
Proof.
  induction l as [|e l IH]; [intros H; by apply elem_of_nil in H|].
  destruct l as [|e' l].
  - intros H. right. exists e. split; [apply list_elem_of_here|done].
  - change (join sep (e :: e' :: l)) with (e ++ sep ++ join sep (e' :: l)).
    rewrite !elem_of_app. intros [H|[H|H]].
    + right. exists e. split; [apply list_elem_of_here|done].
    + by left.
    + destruct (IH H) as [?|(e0 & He0 & Hx)]; [by left|].
      right. exists e0. split; [by apply list_elem_of_further|done].
Qed.

Lemma elem_of_escape x f : x ∈ escape f -> x = ch_backslash \/ x ∈ f.
Proof.
  unfold escape. induction f as [|c f IH]; simpl; [intros H; by apply elem_of_nil in H|].
  rewrite elem_of_app. intros [H|H].
  - unfold escapeChar in H. destruct ((c =? ch_backslash) || (c =? ch_dquote))%N.
    + apply elem_of_cons in H as [->|H]; [by left|].
      apply list_elem_of_singleton in H as ->. right. apply list_elem_of_here.
    + apply list_elem_of_singleton in H as ->. right. apply list_elem_of_here.
  - destruct (IH H) as [?|?]; [by left|]. right. by apply list_elem_of_further.
Qed.

Lemma encodeField_no_newline f : ch_newline ∉ f -> ch_newline ∉ encodeField f.
Proof.
  intros Hf. unfold encodeField, quoted.
  rewrite not_elem_of_cons, not_elem_of_app. split; [done|]. split.
  - intros H. by apply elem_of_escape in H as [?|?].
  - by rewrite list_elem_of_singleton.
Qed.

Lemma decimal_no_newline z : ch_newline ∉ decimal z.
Proof. intros H. apply decimal_range in H as [?|?]; [done|]. vm_compute in H. by destruct H as [H _]. Qed.

Lemma wireFields_no_newline r :
  noLineFeed r -> Forall (fun e => ch_newline ∉ e) ((wireFields r).*1).
Proof.
  unfold noLineFeed.
  assert (Hb : forall b, ch_newline ∉ (boolField b).1).
  { intros []; apply (bool_decide_unpack _); vm_compute; exact I. }
  destruct r; cbn [stringFields wireFields app]; intros Hall;
    rewrite ?fmap_cons, ?fmap_app; cbn [app fmap list_fmap];
    repeat match goal with
      | H : Forall _ (_ :: _) |- _ => apply Forall_cons in H as [? H]
      end;
    repeat first
      [apply List.Forall_nil
      |apply List.Forall_cons;
       [first [apply decimal_no_newline
              |by apply encodeField_no_newline
              |apply Hb]|]].
  change (Forall (fun e => ch_newline ∉ e) ((stringField <$> params).*1)).
  rewrite <- list_fmap_compose. apply Forall_fmap.
  eapply Forall_impl; [exact Hall|]. intros f Hf. simpl.
  by apply encodeField_no_newline.
Qed.

Lemma formatRecord_no_newline r : noLineFeed r -> ch_newline ∉ formatRecord r.
Proof.
  intros Hr. unfold formatRecord.
  rewrite not_elem_of_app, not_elem_of_cons. split; [|split].
  - destruct r as [| [] | | | | []]; apply (bool_decide_unpack _); vm_compute; exact I.
  - done.
  - intros H. apply elem_of_join in H as [H|(e & He & Hx)].
    + by apply list_elem_of_singleton in H.
    + pose proof (wireFields_no_newline r Hr) as Hall.
      by apply (proj1 (Forall_forall _ _) Hall e He).
Qed.

Lemma decodeLines_formatRecord rs :
  decodeLines (formatRecord <$> rs) = Normal rs.
Proof.
  induction rs as [|r rs IH]; [reflexivity|].
  cbn [fmap list_fmap decodeLines]. fold (formatRecord <$> rs).
  destruct (tagOf_shape r) as [shape Hshape].
  unfold parseRobotLine.
  rewrite (parseRobotLineWith_split _ _ (tagOf r)
             (join [ch_comma] ((wireFields r).*1)) (trim_formatRecord r)
             (tagShape_no_colon _ _ Hshape)).
  by rewrite decodeSwitch_formatRecord, IH.
Qed.

(** X16. A whole output is read back: when no string field holds a line
    feed (the text is cut at every line feed, quoted or not) and every
    number is a safe integer (below 2^53 in magnitude, where [parseInt]
    is exact), the lines of any sequence of records joined by line feeds
    decode to that sequence, in order. *)
Theorem parseRobotOutput_formatRecord (rs : list RobotOutput) :
  Forall noLineFeed rs ->
  Forall safeRecord rs ->
  parseRobotOutput (join [ch_newline] (formatRecord <$> rs)) = Normal rs.
Proof.
  intros Hall _. unfold parseRobotOutput.
  destruct rs as [|r rs]; [reflexivity|].
  rewrite split_join.
  - apply decodeLines_formatRecord.
  - apply Forall_fmap. eapply Forall_impl; [exact Hall|].
    intros r0. apply formatRecord_no_newline.
  - done.
Qed.

Lemma parseRobotOutput_formatRecord_witness :
  parseRobotOutput
    (join [ch_newline]
       (formatRecord <$> [TitleCount 2; InfoOutput CINFO 32 0 (lit "MY,DISC");
                          DriveInfo 0 true false 999 (lit "BD-RE") []]))
  = Normal [TitleCount 2; InfoOutput CINFO 32 0 (lit "MY,DISC");
            DriveInfo 0 true false 999 (lit "BD-RE") []].
Proof.
  apply parseRobotOutput_formatRecord.
  - repeat constructor; apply (bool_decide_unpack _); vm_compute; exact I.
  - repeat constructor; lia.
Defined.

(** * Properties of the command builder *)

Section CommandFacts.

Variable numberToString : Z -> jsstring.

Local Ltac split_args :=
  repeat (cbn [defined isTrue];
          match goal with
          | |- context [defined ?p] => is_var p; destruct p as [| |?]
          | |- context [isTrue ?p] => is_var p; destruct p as [| |[]]
          | |- context [match ?d with inl _ => _ | inr _ => _ end] =>
              is_var d; destruct d as [[]|]
          end);
  cbn [defined isTrue].

Lemma buildGeneralArgs_dashed o :
  Forall (fun a => startsWithDash a = true) (buildGeneralArgs numberToString o).
Proof.
  destruct o as [m p d dio ns c r ml dc u ip bp]. unfold buildGeneralArgs.
  cbn [messages progress debug directio noscan cache robot].
  repeat (apply Forall_app; split).
  all: split_args; cbn [defined isTrue]; repeat constructor.
Qed.

Lemma buildGeneralArgs_length o :
  (length (buildGeneralArgs numberToString o) <= 7)%nat.
Proof.
  destruct o as [m p d dio ns c r ml dc u ip bp]. unfold buildGeneralArgs.
  cbn [messages progress debug directio noscan cache robot].
  rewrite !length_app.
  destruct m, p, d as [| |[[]|]], dio, ns as [| |[]], c, r as [| |[]];
    cbn [defined isTrue length]; lia.
Qed.

Lemma robot_flag_iff o :
  lit "-r" ∈ buildGeneralArgs numberToString o <-> isTrue (robot o) = true.
Proof.
  destruct o as [m p d dio ns c r ml dc u ip bp]. unfold buildGeneralArgs.
  cbn [messages progress debug directio noscan cache robot].
  rewrite !elem_of_app. split.
  - intros H.
    repeat match goal with
      | H : _ \/ _ |- _ => destruct H as [H|H]
      end;
      try (destruct r as [| |[]]; [..|reflexivity|]; cbn [isTrue] in H;
           by apply elem_of_nil in H);
      exfalso; revert H;
      split_args; cbn [defined isTrue];
      rewrite ?elem_of_nil, ?list_elem_of_singleton; try done;
      intros H; vm_compute in H; discriminate H || (by injection H).
  - intros Hr. do 6 right. rewrite Hr. apply list_elem_of_here.
Qed.

Lemma no_long_robot_flag o : lit "--robot" ∉ buildGeneralArgs numberToString o.
Proof.
  destruct o as [m p d dio ns c r ml dc u ip bp]. unfold buildGeneralArgs.
  cbn [messages progress debug directio noscan cache robot].
  rewrite !elem_of_app. intros H.
  repeat match goal with
    | H : _ \/ _ |- _ => destruct H as [H|H]
    end;
    revert H; split_args; cbn [defined isTrue];
    rewrite ?elem_of_nil, ?list_elem_of_singleton; try done;
    intros H; vm_compute in H; discriminate H || (by injection H).
Qed.

(** X17. [buildGeneralArgs] emits the robot-mode flag [-r] exactly when
    the [robot] option is true, and never the long form [--robot]; no
    other option, whatever its string or number, produces either
    argument. *)
Theorem buildGeneralArgs_robot (o : Options) :
  (lit "-r" ∈ buildGeneralArgs numberToString o <-> isTrue (robot o) = true)
  /\ lit "--robot" ∉ buildGeneralArgs numberToString o.
Proof.
  split.
  - apply robot_flag_iff.
  - apply no_long_robot_flag.
Qed.

(** X18. In the arguments of a command the general options come first,
    each starting with a dash and at most seven of them, then the command
    word, which starts with no dash, then the arguments of the command as
    given. *)
Theorem buildCommand_shape (spec : CommandSpec) :
  exists general,
    buildCommand numberToString spec
    = general ++ commandWord (command spec) :: args spec
    /\ Forall (fun a => startsWithDash a = true) general
    /\ (length general <= 7)%nat
    /\ startsWithDash (commandWord (command spec)) = false.
Proof.
  exists (buildGeneralArgs numberToString (default noOptions (options spec))).
  split; [reflexivity|]. split; [apply buildGeneralArgs_dashed|].
  split; [apply buildGeneralArgs_length|]. by destruct (command spec).
Qed.

Lemma buildGeneralArgs_withRobot o :
  robot o = Absent ->
  buildGeneralArgs numberToString (withRobot o)
  = buildGeneralArgs numberToString o ++ [lit "-r"].
Proof.
  destruct o as [m p d dio ns c r ml dc u ip bp]. simpl. intros ->.
  unfold buildGeneralArgs. simpl. by rewrite !app_nil_r, <- !app_assoc.
Qed.

(** X19. Without a [robot] option of the caller, the info command asks for
    robot mode: its arguments are the general options of the caller, then
    [-r], [info] and the disc.  A [robot] option of the caller replaces
    the default (an explicit [undefined] too), so the flag is there
    exactly when the caller leaves [robot] out or sets it to true. *)
Theorem buildInfoCommand_robot (discIndex : Z) (o : Options) :
  (robot o = Absent ->
   buildCommand numberToString (buildInfoCommand numberToString discIndex o)
   = buildGeneralArgs numberToString o
       ++ [lit "-r"; lit "info"; lit "disc:" ++ numberToString discIndex])
  /\ (lit "-r"
        ∈ buildCommand numberToString
            (buildInfoCommand numberToString discIndex o)
      <-> robot o = Absent \/ robot o = Value true).
Proof.
  split.
  - intros Hr. unfold buildCommand, buildInfoCommand. simpl.
    rewrite buildGeneralArgs_withRobot by done. by rewrite <- app_assoc.
  - unfold buildCommand. simpl. rewrite elem_of_app, robot_flag_iff.
    rewrite !elem_of_cons, elem_of_nil. unfold discArg.
    destruct o as [m p d dio ns c r ml dc u ip bp]. simpl.
    destruct r as [| |[]]; simpl; split; intros H;
      repeat match goal with
        | H : _ \/ _ |- _ => destruct H as [H|H]
        end; try done; auto;
      vm_compute in H; first [discriminate H | by injection H].
Qed.

(** X20. Without [robot] and [cache] options of the caller, listing the
    drives runs [--cache=1 -r info disc:9999] after the general options of
    the caller. *)
Theorem buildListDrivesCommand_defaults (o : Options) :
  robot o = Absent -> cache o = Absent ->
  buildCommand numberToString (buildListDrivesCommand o)
  = buildGeneralArgs numberToString o
      ++ [lit "--cache=" ++ numberToString 1; lit "-r"; lit "info";
          lit "disc:9999"].
Proof.
  destruct o as [m p d dio ns c r ml dc u ip bp]. simpl. intros -> ->.
  unfold buildCommand, buildListDrivesCommand, buildGeneralArgs. simpl.
  by rewrite !app_nil_r, <- !app_assoc.
Qed.

(** X21. The positional arguments come last.  The mkv command ends with
    the disc, the titles and the output folder, the backup command with
    the disc and the output folder; before them come only the general
    options, the command word and the options of the command, every
    option starting with a dash.  The titles are [all] or the numbers
    joined by commas, which is the empty argument for an empty array. *)
Theorem positional_arguments_last (discIndex : Z) (titles : Titles)
    (outputFolder : jsstring) (o : Options) :
  (exists general specific,
     buildCommand numberToString
       (buildMkvCommand numberToString discIndex titles outputFolder o)
     = general ++ [lit "mkv"] ++ specific
         ++ [discArg numberToString discIndex;
             titleArg numberToString titles; outputFolder]
     /\ Forall (fun a => startsWithDash a = true) (general ++ specific))
  /\ (exists general specific,
        buildCommand numberToString
          (buildBackupCommand numberToString discIndex outputFolder o)
        = general ++ [lit "backup"] ++ specific
            ++ [discArg numberToString discIndex; outputFolder]
        /\ Forall (fun a => startsWithDash a = true) (general ++ specific))
  /\ (exists general specific,
        buildCommand numberToString (buildStreamCommand numberToString o)
        = general ++ [lit "stream"] ++ specific
        /\ Forall (fun a => startsWithDash a = true) (general ++ specific))
  /\ titleArg numberToString AllTitles = lit "all"
  /\ titleArg numberToString (TitleList []) = [].
Proof.
  assert (Hc : Forall (fun a => startsWithDash a = true)
                 (buildConversionArgs numberToString o)).
  { unfold buildConversionArgs. destruct (minlength o); repeat constructor. }
  assert (Hb : Forall (fun a => startsWithDash a = true) (buildBackupArgs o)).
  { unfold buildBackupArgs. destruct (decrypt o) as [| |[]]; repeat constructor. }
  assert (Hs : Forall (fun a => startsWithDash a = true)
                 (buildStreamingArgs numberToString o)).
  { unfold buildStreamingArgs.
    destruct (upnp o), (bindip o), (bindport o); repeat constructor. }
  pose proof (buildGeneralArgs_dashed o) as Hg.
  split; [|split; [|split; [|split]]]; try reflexivity.
  - exists (buildGeneralArgs numberToString o),
      (buildConversionArgs numberToString o).
    split; [reflexivity|]. by apply Forall_app.
  - exists (buildGeneralArgs numberToString o), (buildBackupArgs o).
    split; [reflexivity|]. by apply Forall_app.
  - exists (buildGeneralArgs numberToString o),
      (buildStreamingArgs numberToString o).
    split; [reflexivity|]. by apply Forall_app.
Qed.

End CommandFacts.

Lemma buildInfoCommand_robot_witness :
  buildCommand decimal (buildInfoCommand decimal 0 noOptions)
  = [lit "-r"; lit "info"; lit "disc:0"].
Proof.
  destruct (buildInfoCommand_robot decimal 0 noOptions) as [H _].
  exact (H eq_refl).
Defined.

Lemma buildListDrivesCommand_defaults_witness :
  buildCommand decimal (buildListDrivesCommand noOptions)
  = [lit "--cache=1"; lit "-r"; lit "info"; lit "disc:9999"].
Proof.
  exact (buildListDrivesCommand_defaults decimal noOptions eq_refl eq_refl).
Defined.

Section ExecutorFacts.

Variable numberToString : Z -> jsstring.

Local Ltac split_args :=
  repeat (cbn [defined isTrue];
          match goal with
          | |- context [defined ?p] => is_var p; destruct p as [| |?]
          | |- context [isTrue ?p] => is_var p; destruct p as [| |[]]
          | |- context [match ?d with inl _ => _ | inr _ => _ end] =>
              is_var d; destruct d as [[]|]
          end);
  cbn [defined isTrue].

(** X22. The two executors agree on robot mode: when the command's own
    arguments hold neither [-r] nor [--robot], the test [executeRaw] makes
    on the built argument list gives what [execute] reads from the
    [robot] option of the command. *)
Theorem hasRobotMode_buildCommand (spec : CommandSpec) :
  lit "-r" ∉ args spec ->
  lit "--robot" ∉ args spec ->
  hasRobotMode (buildCommand numberToString spec) = specRobot spec.
Proof.
  intros Hshort Hlong. unfold hasRobotMode, specRobot, buildCommand.
  assert (lit "--robot" ∉ buildGeneralArgs numberToString
                             (default noOptions (options spec))
                           ++ commandWord (command spec) :: args spec) as Hno.
  { rewrite not_elem_of_app, not_elem_of_cons.
    split; [apply no_long_robot_flag|]. split; [by destruct (command spec)|done]. }
  rewrite (bool_decide_eq_false_2 _ Hno), orb_false_r.
  assert (lit "-r" ∈ buildGeneralArgs numberToString
                        (default noOptions (options spec))
                      ++ commandWord (command spec) :: args spec
          <-> isTrue (robot (default noOptions (options spec))) = true) as Hiff.
  { rewrite elem_of_app, elem_of_cons, robot_flag_iff.
    split; [|by left]. intros [?|[Hc|?]]; [done| |done].
    by destruct (command spec). }
  destruct (options spec) as [o|]; simpl in *.
  - destruct (isTrue (robot o)).
    + apply bool_decide_eq_true, Hiff. reflexivity.
    + apply bool_decide_eq_false. intros H. by apply Hiff in H.
  - apply bool_decide_eq_false. intros H. by apply Hiff in H.
Qed.

End ExecutorFacts.

Lemma hasRobotMode_buildCommand_witness :
  hasRobotMode (buildCommand decimal (buildInfoCommand decimal 0 noOptions))
  = specRobot (buildInfoCommand decimal 0 noOptions).
Proof.
  apply hasRobotMode_buildCommand;
    apply (bool_decide_unpack _); vm_compute; exact I.
Defined.
